(** * functions-vote: the commitment-gated execution contract and its resolver

    A shallow embedding of [contracts/FunctionsConsumer.sol] (the registry,
    the execution gate, the dispatcher and the commitment codec) and of
    [snapshot.js] (the off-chain decision resolver), with the properties the
    design document states about them. *)

From Stdlib Require Import ZArith QArith Lia.
From Stdlib Require Import Strings.Byte.
From stdpp Require Import gmap strings list fin_maps.

Local Open Scope Z_scope.

(** ** Bytes *)

#[global] Instance byte_eq_decision : EqDecision byte := Byte.byte_eq_dec.

#[global] Instance byte_countable : Countable byte :=
  inj_countable Byte.to_N Byte.of_N Byte.of_to_N.

(** Solidity's [bytes] is a byte string; a [bytes32] is a byte string of
    length 32 (most significant byte first, as [mload] returns it). *)
Abbreviation bytes := (list byte) (only parsing).
Abbreviation bytes32 := (list byte) (only parsing).

(** ** Failures of a Solidity call *)

Inductive Revert : Type :=
| Error (reason : string)   (* [require(c, reason)] and [revert(reason)] *)
| Panic (code : Z)          (* compiler checks: 0x11 overflow, 0x32 index out of bounds *)
| Raw (payload : list byte) (* assembly [revert(ptr, size)] *)
| OutOfGas.

Inductive result (A : Type) : Type :=
| Ok (a : A)
| Fail (r : Revert).
Arguments Ok {A} a.
Arguments Fail {A} r.

Definition uint256_max : Z := 2 ^ 256 - 1.

(** Checked addition of Solidity 0.8 on [uint256]. *)
Definition checked_add (a b : Z) : result Z :=
  if a + b <=? uint256_max then Ok (a + b) else Fail (Panic 0x11).

(** ** CommitmentCodec: [bytesToBytes32Array] *)

Module Codec.

(** [mload(add(data, i))] for a [bytes memory data]: the word at offset 0 is
    the length, so the byte at offset [i] is [data[i - 32]]; the 32 bytes
    read are [data[i-32 .. i)]. The loop only reads with [32 <= i <=
    data.length], inside the array. *)
Definition mload_add (data : list byte) (i : Z) : list byte :=
  take 32 (drop (Z.to_nat (i - 32)) data).

(** [dataList[index] = temp] on a memory array: out of range is Panic 0x32. *)
Definition store_at (dataList : list (list byte)) (index : Z) (temp : list byte)
  : result (list (list byte)) :=
  if (0 <=? index) && (index <? Z.of_nat (length dataList))
  then Ok (<[Z.to_nat index := temp]> dataList)
  else Fail (Panic 0x32).

(** The [for] loop, one iteration per unit of [fuel]; running out of it
    stands for running out of gas:
    [for (uint256 i = 32; i <= data.length; i = i + 32) { ...; index++; }] *)
Fixpoint loop (fuel : nat) (data : list byte) (i index : Z)
    (dataList : list (list byte)) : result (list (list byte)) :=
  match fuel with
  | O => Fail OutOfGas
  | S fuel' =>
      if i <=? Z.of_nat (length data) then
        let temp := mload_add data i in
        match store_at dataList index temp with
        | Fail r => Fail r
        | Ok dataList' =>
            match checked_add index 1 with
            | Fail r => Fail r
            | Ok index' =>
                match checked_add i 32 with
                | Fail r => Fail r
                | Ok i' => loop fuel' data i' index' dataList'
                end
            end
        end
      else Ok dataList
  end.

Definition zero32 : list byte := replicate 32 x00.

(** [bytesToBytes32Array] run on a budget of loop tests. *)
Definition bytesToBytes32Array_fuel (fuel : nat) (data : list byte)
  : result (list (list byte)) :=
  let dataNb := Z.of_nat (length data) / 32 in
  let dataList := replicate (Z.to_nat dataNb) zero32 in
  let index := 0 in
  loop fuel data 32 index dataList.

(** The loop runs [data.length / 32] times; one more test ends it. *)
Definition bytesToBytes32Array (data : list byte) : result (list (list byte)) :=
  bytesToBytes32Array_fuel (S (length data / 32)) data.

(** The decoder in the words of the design: consecutive 32-byte chunks in
    order, a trailing partial chunk dropped. *)
Fixpoint chunks (n : nat) (data : list byte) : list (list byte) :=
  match n with
  | O => []
  | S n' => take 32 data :: chunks n' (drop 32 data)
  end.

Definition decode (data : list byte) : list (list byte) :=
  chunks (length data / 32) data.

End Codec.

(** ** The contract [FunctionsConsumer] *)

(** The two compiler primitives the gate uses to bind a transaction:
    [keccak256] and [abi.encode(address, uint256, bytes, uint8)]. *)
Class Primitives : Type := {
  keccak256 : list byte -> list byte;
  abi_encode : Z -> Z -> list byte -> Z -> list byte
}.

Module Consumer.

Inductive Operation : Type := CALL | DELEGATECALL.

#[global] Instance Operation_eq_dec : EqDecision Operation.
Proof. solve_decision. Defined.

(** A low-level call issued by the dispatcher. *)
Record LowLevelCall : Type := {
  call_operation : Operation;
  call_to : Z;
  call_value : Z;
  call_data : list byte
}.

Inductive Event : Type :=
| OCRResponse (requestId : list byte) (result : list byte) (err : list byte).

(** Ghost record of one dispatch that passed the hash check and succeeded. *)
Record Verified : Type := {
  v_proposal : string;
  v_index : Z;
  v_to : Z;
  v_value : Z;
  v_data : list byte;
  v_operation : Z
}.

(** The three mappings of the contract, its event log, and a ghost history
    [verified] that no code reads. A Solidity mapping is total: a key
    never written holds the zero value of its type. *)
Record Storage : Type := {
  functionRequestsForProposals : gmap (list byte) string;
  proposals : gmap string (list (list byte));
  executed : gmap string bool;
  events : list Event;
  verified : list Verified
}.

Definition empty_storage : Storage :=
  {| functionRequestsForProposals := ∅; proposals := ∅; executed := ∅;
     events := []; verified := [] |}.

Definition requestOf (s : Storage) (requestId : list byte) : string :=
  default EmptyString (functionRequestsForProposals s !! requestId).
Definition commitmentsOf (s : Storage) (proposalId : string) : list (list byte) :=
  default [] (proposals s !! proposalId).
Definition isExecuted (s : Storage) (proposalId : string) : bool :=
  default false (executed s !! proposalId).

Definition set_request (requestId : list byte) (proposalId : string) (s : Storage) : Storage :=
  {| functionRequestsForProposals := <[requestId := proposalId]> (functionRequestsForProposals s);
     proposals := proposals s; executed := executed s;
     events := events s; verified := verified s |}.
Definition set_proposal (proposalId : string) (c : list (list byte)) (s : Storage) : Storage :=
  {| functionRequestsForProposals := functionRequestsForProposals s;
     proposals := <[proposalId := c]> (proposals s); executed := executed s;
     events := events s; verified := verified s |}.
Definition set_executed (proposalId : string) (b : bool) (s : Storage) : Storage :=
  {| functionRequestsForProposals := functionRequestsForProposals s;
     proposals := proposals s; executed := <[proposalId := b]> (executed s);
     events := events s; verified := verified s |}.
Definition emit (e : Event) (s : Storage) : Storage :=
  {| functionRequestsForProposals := functionRequestsForProposals s;
     proposals := proposals s; executed := executed s;
     events := events s ++ [e]; verified := verified s |}.
Definition record_verified (v : Verified) (s : Storage) : Storage :=
  {| functionRequestsForProposals := functionRequestsForProposals s;
     proposals := proposals s; executed := executed s;
     events := events s; verified := verified s ++ [v] |}.

(** *** The execution monad

    A call runs on the storage and either returns a value and a new storage
    or reverts; [calls] lists the low-level calls issued on the way, whether
    the call reverts in the end or not. *)
Record Outcome (A : Type) : Type := {
  res : result (A * Storage);
  calls : list LowLevelCall
}.
Arguments res {A} _.
Arguments calls {A} _.

Definition M (A : Type) : Type := Storage -> Outcome A.

(** A call that reverts before any low-level call. *)
Definition reverted {A} (r : Revert) : Outcome A := {| res := Fail r; calls := [] |}.

Definition ret {A} (a : A) : M A :=
  fun s => {| res := Ok (a, s); calls := [] |}.
Definition revert {A} (r : Revert) : M A :=
  fun _ => reverted r.
Definition bind {A B} (m : M A) (f : A -> M B) : M B :=
  fun s =>
    let o := m s in
    match res o with
    | Ok (a, s') =>
        let o' := f a s' in
        {| res := res o'; calls := calls o ++ calls o' |}
    | Fail r => {| res := Fail r; calls := calls o |}
    end.
Definition require (c : bool) (reason : string) : M unit :=
  if c then ret tt else revert (Error reason).
Definition read {A} (f : Storage -> A) : M A :=
  fun s => {| res := Ok (f s, s); calls := [] |}.
Definition write (f : Storage -> Storage) : M unit :=
  fun s => {| res := Ok (tt, f s); calls := [] |}.
Definition lift {A} (r : result A) : M A :=
  match r with Ok a => ret a | Fail e => revert e end.

Declare Scope sol_scope.
Delimit Scope sol_scope with sol.
Notation "x <- m ;; k" := (bind m (fun x => k))
  (at level 100, m at next level, right associativity) : sol_scope.
Notation "m ;;; k" := (bind m (fun _ => k))
  (at level 100, right associativity) : sol_scope.

(** The effect of a transaction on the chain: a revert leaves the storage
    as it was. *)
Definition commit {A} (m : M A) (s : Storage) : Storage :=
  match res (m s) with
  | Ok (_, s') => s'
  | Fail _ => s
  end.

(** *** The world outside the contract

    What the target of a low-level call does: whether it succeeds, what it
    returns, the contract's storage when it hands control back (it may
    have re-entered the contract), and the low-level calls the contract
    issued meanwhile. *)
Record CallResult : Type := {
  success : bool;
  returnData : list byte;
  storage_after : Storage;
  nested : list LowLevelCall
}.

Definition External : Type := LowLevelCall -> Storage -> CallResult.

(** [(success, returnData) = to.call{value: value}(data)] or
    [to.delegatecall(data)]: a failed call leaves no change behind. *)
Definition low_level (ext : External) (c : LowLevelCall) : M (bool * list byte) :=
  fun s =>
    let r := ext c s in
    {| res := Ok ((success r, returnData r), if success r then storage_after r else s);
       calls := c :: nested r |}.

(** [a[i]] on a storage array with the compiler's bounds check. *)
Definition index_at {A} (a : list A) (i : Z) : result A :=
  if 0 <=? i then
    match a !! Z.to_nat i with
    | Some x => Ok x
    | None => Fail (Panic 0x32)
    end
  else Fail (Panic 0x32).

(** The low-level call that [exec] issues for [operation == 0 ? CALL :
    DELEGATECALL]; a delegate call carries no value of its own. *)
Definition dispatched (to value : Z) (data : list byte) (operation : Z) : LowLevelCall :=
  if operation =? 0
  then {| call_operation := CALL; call_to := to; call_value := value; call_data := data |}
  else {| call_operation := DELEGATECALL; call_to := to; call_value := 0; call_data := data |}.

(** The ghost record of a dispatch. *)
Definition receipt (proposalId : string) (to value : Z) (data : list byte)
    (operation txIndex : Z) : Verified :=
  {| v_proposal := proposalId; v_index := txIndex; v_to := to;
     v_value := value; v_data := data; v_operation := operation |}.

Section Code.
Context `{Primitives}.
Variable ext : External.

Local Open Scope sol_scope.

(** [executeRequest]: the owner check is [ConfirmedOwner]'s and building
    and sending the request is [FunctionsClient]'s; neither is part of
    this contract's code, so their outcomes are taken as arguments. *)
Definition executeRequest (isOwner : bool) (args : list string)
    (sendRequest : result (list byte)) : M (list byte) :=
  require isOwner "Only callable by owner" ;;;
  proposalId <- lift (index_at args 0) ;;
  done <- read (fun s => isExecuted s proposalId) ;;
  require (negb done) "Proposal already executed" ;;;
  requestId <- lift sendRequest ;;
  proposalId' <- lift (index_at args 0) ;;
  write (set_request requestId proposalId') ;;;
  ret requestId.

Definition fulfillRequest (requestId response err : list byte) : M unit :=
  proposalId <- read (fun s => requestOf s requestId) ;;
  done <- read (fun s => isExecuted s proposalId) ;;
  require (negb done) "Proposal already executed" ;;;
  decoded <- lift (Codec.bytesToBytes32Array response) ;;
  proposalId' <- read (fun s => requestOf s requestId) ;;
  write (set_proposal proposalId' decoded) ;;;
  write (emit (OCRResponse requestId response err)).

Definition exec (to value : Z) (data : list byte) (operation : Operation) : M bool :=
  let success0 := false in
  let returnData0 : list byte := [] in
  if decide (operation = CALL) then
    r <- low_level ext {| call_operation := CALL; call_to := to;
                          call_value := value; call_data := data |} ;;
    ret (fst r)
  else if decide (operation = DELEGATECALL) then
    r <- low_level ext {| call_operation := DELEGATECALL; call_to := to;
                          call_value := 0; call_data := data |} ;;
    ret (fst r)
  else
    (* the check below the two returns *)
    if negb success0 then
      if (length returnData0 =? 0)%nat
      then revert (Error "Transaction reverted silently")
      else revert (Raw returnData0)
    else ret true.

Definition executeProposalWithIndex (proposalId : string) (to value : Z)
    (data : list byte) (operation : Z) (txIndex : Z) : M unit :=
  done <- read (fun s => isExecuted s proposalId) ;;
  require (negb done) "Proposal already executed" ;;;
  write (set_executed proposalId true) ;;;
  let candidate := keccak256 (abi_encode to value data operation) in
  stored <- read (fun s => commitmentsOf s proposalId) ;;
  commitment <- lift (index_at stored txIndex) ;;
  require (bool_decide (candidate = commitment)) "Tx hash mismatch" ;;;
  ok <- exec to value data (if operation =? 0 then CALL else DELEGATECALL) ;;
  require ok "Module transaction failed" ;;;
  (* ghost: no statement of the source, it keeps the history [verified] *)
  write (record_verified (receipt proposalId to value data operation txIndex)).

Definition executeProposal (proposalId : string) (to value : Z)
    (data : list byte) (operation : Z) : M unit :=
  executeProposalWithIndex proposalId to value data operation 0.

Definition hasCompletelyExecuted (proposalId : string) : M bool :=
  read (fun s => isExecuted s proposalId).

End Code.

End Consumer.

(** ** Callers and callees of the contract *)

Module World.
Import Consumer.

(** A call of one of the contract's state-changing entry points.
    [FulfillRequest] is the oracle callback; the inherited client reaches
    [fulfillRequest] through it. *)
Inductive Msg : Type :=
| ExecuteRequest (isOwner : bool) (args : list string) (sendRequest : result (list byte))
| FulfillRequest (requestId response err : list byte)
| ExecuteProposal (proposalId : string) (to value : Z) (data : list byte) (operation : Z)
| ExecuteProposalWithIndex (proposalId : string) (to value : Z) (data : list byte)
    (operation : Z) (txIndex : Z).

Definition handle `{Primitives} (ext : External) (m : Msg) : M unit :=
  match m with
  | ExecuteRequest isOwner args sendRequest =>
      bind (executeRequest isOwner args sendRequest) (fun _ => ret tt)
  | FulfillRequest requestId response err =>
      fulfillRequest requestId response err
  | ExecuteProposal proposalId to value data operation =>
      executeProposal ext proposalId to value data operation
  | ExecuteProposalWithIndex proposalId to value data operation txIndex =>
      executeProposalWithIndex ext proposalId to value data operation txIndex
  end.

(** A store to one of the contract's three mappings. *)
Inductive Write : Type :=
| SetExecuted (proposalId : string) (b : bool)
| SetProposal (proposalId : string) (c : list (list byte))
| SetRequest (requestId : list byte) (proposalId : string).

Definition apply_write (w : Write) (s : Storage) : Storage :=
  match w with
  | SetExecuted proposalId b => set_executed proposalId b s
  | SetProposal proposalId c => set_proposal proposalId c s
  | SetRequest requestId proposalId => set_request requestId proposalId s
  end.

(** The code at the target of a low-level call, as far as the contract can
    tell: it ends with a status and return data, and before that it may
    read the contract's public state, call back into the contract any
    number of times, and store. [inner] is the target met by the dispatch of
    the re-entrant call, [k] how the callee goes on once told whether its
    call succeeded. A store reaches the contract's mappings when the code
    runs by DELEGATECALL, on the contract's own storage; run by CALL it
    writes the target's storage and leaves the contract's alone. *)
Inductive Callee : Type :=
| Halt (ok : bool) (ret : list byte)
| Inspect (k : Storage -> Callee)   (* reads through the public getters *)
| Store (w : Write) (k : Callee)
| Reenter (m : Msg) (inner : Callee) (k : bool -> Callee).

Definition is_ok {A} (r : result A) : bool :=
  match r with Ok _ => true | Fail _ => false end.

Fixpoint run `{Primitives} (c : Callee) (call : LowLevelCall) (s : Storage) : CallResult :=
  match c with
  | Halt ok ret =>
      {| success := ok; returnData := ret; storage_after := s; nested := [] |}
  | Inspect k => run (k s) call s
  | Store w k =>
      run k call (if decide (call_operation call = DELEGATECALL) then apply_write w s else s)
  | Reenter m inner k =>
      let o := handle (run inner) m s in
      let r := run (k (is_ok (res o))) call (commit (handle (run inner) m) s) in
      {| success := success r; returnData := returnData r;
         storage_after := storage_after r; nested := calls o ++ nested r |}
  end.

(** Proposal [p] has a dispatch in the ghost history whose transaction hashes
    to the commitment stored at its index. The ghost history is a device of
    the proofs; it is shown equal to the record kept outside the contract
    ([run_log], [handle_log]), which is what the theorems speak of. *)
Definition hash_verified `{Primitives} (s : Storage) (p : string) : Prop :=
  exists v, v ∈ verified s /\ v_proposal v = p /\
    index_at (commitmentsOf s p) (v_index v)
    = Ok (keccak256 (abi_encode (v_to v) (v_value v) (v_data v) (v_operation v))).

(** How the storage may differ between two moments of the contract's life:
    executed flags stay set, the commitments of an executed proposal stay
    as they are, the record of dispatches only grows, and a flag set
    meanwhile has a verified dispatch behind it. *)
Definition evolves `{Primitives} (s s' : Storage) : Prop :=
  (forall p, isExecuted s p = true -> isExecuted s' p = true) /\
  (forall p, isExecuted s p = true -> commitmentsOf s' p = commitmentsOf s p) /\
  (forall v, v ∈ verified s -> v ∈ verified s') /\
  (forall p, isExecuted s' p = true -> isExecuted s p = true \/ hash_verified s' p).

(** The states of the deployed contract: it starts empty, and every
    transaction is a call of an entry point, met by some callee. *)
Inductive reachable `{Primitives} : Storage -> Prop :=
| reachable_deployed : reachable empty_storage
| reachable_transaction s m c :
    reachable s -> reachable (commit (handle (run c) m) s).

(** A callee that never stores to the contract's mappings itself, nor do the
    targets met by its re-entrant calls: whatever it changes, it changes
    through the entry points. *)
Inductive quiet : Callee -> Prop :=
| quiet_Halt ok ret : quiet (Halt ok ret)
| quiet_Inspect k : (forall s, quiet (k s)) -> quiet (Inspect k)
| quiet_Reenter m inner k :
    quiet inner -> (forall ok, quiet (k ok)) -> quiet (Reenter m inner k).

(** *** The dispatches that were verified and succeeded

    A record kept outside the contract. It does not read the contract's
    code: a dispatch is entered when the proposal was not executed, the hash
    of the transaction equalled the commitment stored at the index, and the
    low-level call issued for the transaction returned [success = true];
    the dispatches granted by the target meanwhile come before it. *)
Definition gate_log `{Primitives} (ext : External)
    (inner : LowLevelCall -> Storage -> list Verified)
    (proposalId : string) (to value : Z) (data : list byte) (operation txIndex : Z)
    (s : Storage) : list Verified :=
  if isExecuted s proposalId then []
  else
    match index_at (commitmentsOf s proposalId) txIndex with
    | Fail _ => []
    | Ok commitment =>
        if bool_decide (keccak256 (abi_encode to value data operation) = commitment) then
          let call := dispatched to value data operation in
          if success (ext call (set_executed proposalId true s))
          then inner call (set_executed proposalId true s)
               ++ [receipt proposalId to value data operation txIndex]
          else []
        else []
    end.

Definition handle_log `{Primitives} (ext : External)
    (inner : LowLevelCall -> Storage -> list Verified) (m : Msg) (s : Storage)
  : list Verified :=
  match m with
  | ExecuteRequest _ _ _ => []
  | FulfillRequest _ _ _ => []
  | ExecuteProposal proposalId to value data operation =>
      gate_log ext inner proposalId to value data operation 0 s
  | ExecuteProposalWithIndex proposalId to value data operation txIndex =>
      gate_log ext inner proposalId to value data operation txIndex s
  end.

(** The dispatches granted while a callee runs, in order. *)
Fixpoint run_log `{Primitives} (c : Callee) (call : LowLevelCall) (s : Storage)
  : list Verified :=
  match c with
  | Halt _ _ => []
  | Inspect k => run_log (k s) call s
  | Store w k =>
      run_log k call (if decide (call_operation call = DELEGATECALL) then apply_write w s else s)
  | Reenter m inner k =>
      let o := handle (run inner) m s in
      handle_log (run inner) (run_log inner) m s
      ++ run_log (k (is_ok (res o))) call (commit (handle (run inner) m) s)
  end.

(** The states reached by transactions whose callees are quiet, each with
    the record of the dispatches verified and succeeded so far. *)
Inductive traced `{Primitives} : Storage -> list Verified -> Prop :=
| traced_deployed : traced empty_storage []
| traced_transaction s h m c :
    traced s h -> quiet c ->
    traced (commit (handle (run c) m) s) (h ++ handle_log (run c) (run_log c) m s).

End World.

(** ** The inherited entry point of the oracle *)

Module Client.
Import Consumer.

(** Modelled from the spec: the entry point through which an oracle result
    reaches [fulfillRequest], and its record of the request ids that await a
    result. Both are the inherited client's ([FunctionsClient], imported at
    line 4 of the contract) and are not part of this contract's code. The
    design says: "a request id is consumed exactly once by the first oracle
    result delivered for it", and "redelivery under the same request id must
    be ignored (idempotent no-op)". *)
Record State : Type := {
  pending : gset (list byte);
  storage : Storage
}.

(** Modelled from the spec: a request that was sent awaits its result. *)
Definition await (requestId : list byte) (st : State) : State :=
  {| pending := {[requestId]} ∪ pending st; storage := storage st |}.

(** Modelled from the spec: a result for a request id that awaits one is
    handed to [fulfillRequest] and consumes the id; when the callback
    reverts nothing happens; a result for any other id is ignored. *)
Definition deliver (requestId response err : list byte) (st : State) : State :=
  if decide (requestId ∈ pending st) then
    match res (fulfillRequest requestId response err (storage st)) with
    | Ok (_, s') => {| pending := pending st ∖ {[requestId]}; storage := s' |}
    | Fail _ => st
    end
  else st.

End Client.

(** ** The resolver [snapshot.js] *)

Module Snapshot.

(** A JSON value where the script expects a string. *)
Inductive Value : Type :=
| undefined
| null
| str (s : string).

#[global] Instance Value_eq_dec : EqDecision Value.
Proof. solve_decision. Defined.

(** [a === b] *)
Definition strict_eq (a b : Value) : bool := bool_decide (a = b).

(** For objects and arrays [None] is a missing (or null) field. *)
Record Transaction : Type := {
  to : Value; value : Value; data : Value; operation : Value
}.
Record Batch : Type := {
  hash : Value; transactions : option (list Transaction)
}.
Record Safe : Type := { txs : option (list Batch) }.
Record SafeSnap : Type := {
  executableIf : Value; safes : option (list Safe); txString : Value
}.
Record Plugins : Type := { safeSnap : option SafeSnap }.

(** Numbers are the exact values of the doubles parsed from JSON. *)
Record Proposal : Type := {
  choices : list string;
  plugins : option Plugins;
  quorum : Q;
  scores : list Q;
  scores_state : string;
  scores_total : Q
}.

(** What [await snapshotRequest()] gives: [error] set, or [data.data]
    with its [proposal], which is null for an unknown id. *)
Inductive Response : Type :=
| RequestFailed
| Answer (proposal : option Proposal).

Inductive Thrown : Type :=
| JsError (message : string)
| TypeError.

(** How the script ends. *)
Inductive Completion : Type :=
| Throw (e : Thrown)
| ReturnError (message : string)   (* [return Error(...)] *)
| ReturnBuffer (b : list byte).

(** [Math.max(...xs)] is [-Infinity] on no arguments. *)
Inductive Num : Type :=
| NegInfinity
| Finite (q : Q).

Definition max2 (acc : Num) (x : Q) : Num :=
  match acc with
  | NegInfinity => Finite x
  | Finite m => if Qle_bool x m then Finite m else Finite x
  end.

Definition Math_max (xs : list Q) : Num := fold_left max2 xs NegInfinity.

Definition num_eq (x : Q) (v : Num) : bool :=
  match v with
  | NegInfinity => false
  | Finite m => Qeq_bool x m
  end.

(** [xs.indexOf(v)]: the first index holding [v], or -1. *)
Fixpoint indexOf_from (xs : list Q) (v : Num) (i : Z) : Z :=
  match xs with
  | [] => -1
  | x :: xs' => if num_eq x v then i else indexOf_from xs' v (i + 1)
  end.
Definition indexOf (xs : list Q) (v : Num) : Z := indexOf_from xs v 0.

(** [a[i]] on an array of strings: [undefined] outside it. *)
Definition element (a : list string) (i : Z) : Value :=
  if 0 <=? i then
    match a !! Z.to_nat i with
    | Some s => str s
    | None => undefined
    end
  else undefined.

Definition winningChoice (p : Proposal) : Value :=
  element (choices p) (indexOf (scores p) (Math_max (scores p))).

Definition executableIf_of (p : Proposal) : Value :=
  match plugins p with
  | None => undefined
  | Some pl =>
      match safeSnap pl with
      | None => undefined
      | Some ss => executableIf ss
      end
  end.

Definition shouldExecute (p : Proposal) : bool :=
  strict_eq (executableIf_of p) (winningChoice p).

(** An optional chain either stops early with [undefined] or goes on. *)
Inductive Chain (A : Type) : Type :=
| Short
| Went (a : A).
Arguments Short {A}.
Arguments Went {A} a.

(** [plugins?.safeSnap?.safes[0]?.txs[0]] *)
Definition firstBatch (p : Proposal) : Thrown + Chain (option Batch) :=
  match plugins p with
  | None => inr Short
  | Some pl =>
      match safeSnap pl with
      | None => inr Short
      | Some ss =>
          match safes ss with
          | None => inl TypeError
          | Some l =>
              match l !! 0%nat with
              | None => inr Short
              | Some safe =>
                  match txs safe with
                  | None => inl TypeError
                  | Some bs => inr (Went (bs !! 0%nat))
                  end
              end
          end
      end
  end.

(** [plugins?.safeSnap?.safes[0]?.txs[0].hash] *)
Definition hash_of (p : Proposal) : Thrown + Value :=
  match firstBatch p with
  | inl e => inl e
  | inr Short => inr undefined
  | inr (Went None) => inl TypeError
  | inr (Went (Some b)) => inr (hash b)
  end.

(** [plugins?.safeSnap?.safes[0]?.txs[0].transactions[0].f] *)
Definition field_of (f : Transaction -> Value) (p : Proposal) : Thrown + Value :=
  match firstBatch p with
  | inl e => inl e
  | inr Short => inr undefined
  | inr (Went None) => inl TypeError
  | inr (Went (Some b)) =>
      match transactions b with
      | None => inl TypeError
      | Some ts =>
          match ts !! 0%nat with
          | None => inl TypeError
          | Some t => inr (f t)
          end
      end
  end.

(** [plugins?.safeSnap?.txString] *)
Definition txString_of (p : Proposal) : Value :=
  match plugins p with
  | None => undefined
  | Some pl =>
      match safeSnap pl with
      | None => undefined
      | Some ss => txString ss
      end
  end.

(** [s.slice(2)] *)
Definition slice2 (s : string) : string :=
  String.substring 2 (String.length s - 2) s.

Definition hex_digit (c : Ascii.ascii) : option N :=
  let n := Ascii.N_of_ascii c in
  if ((48 <=? n) && (n <=? 57))%N then Some (n - 48)%N
  else if ((97 <=? n) && (n <=? 102))%N then Some (n - 87)%N
  else if ((65 <=? n) && (n <=? 70))%N then Some (n - 55)%N
  else None.

(** [Buffer.from(s, 'hex')]: two digits a byte, decoding stops at the first
    pair that is not two hex digits, a last lone digit is dropped. *)
Fixpoint Buffer_from_hex (s : string) : list byte :=
  match s with
  | String a (String b rest) =>
      match hex_digit a, hex_digit b with
      | Some h, Some l =>
          match Byte.of_N (16 * h + l) with
          | Some x => x :: Buffer_from_hex rest
          | None => []
          end
      | _, _ => []
      end
  | _ => []
  end.

(** [x < y] on numbers *)
Definition lt (x y : Q) : bool := negb (Qle_bool y x).

Definition resolve_proposal (p : Proposal) : Completion :=
  if negb (String.eqb (scores_state p) "final") then
    Throw (JsError "Snapshot vote is not final")
  else if lt (scores_total p) (quorum p) then
    Throw (JsError "Snapshot vote quorum not reached")
  else if negb (shouldExecute p) then
    ReturnError "Snpashot vote outcome should not execute"
  else
    match hash_of p with
    | inl e => Throw e
    | inr _ =>
        let txString := txString_of p in
        match field_of to p, field_of value p, field_of data p, field_of operation p with
        | inr _, inr _, inr _, inr _ =>
            match txString with
            | str s =>
                let hexStringWithoutPrefix := slice2 s in
                ReturnBuffer (Buffer_from_hex hexStringWithoutPrefix)
            | _ => Throw TypeError
            end
        | inl e, _, _, _ => Throw e
        | _, inl e, _, _ => Throw e
        | _, _, inl e, _ => Throw e
        | _, _, _, inl e => Throw e
        end
    end.

Definition resolve (r : Response) : Completion :=
  match r with
  | RequestFailed => Throw (JsError "Snapshot request failed")
  | Answer None => Throw TypeError
  | Answer (Some p) => resolve_proposal p
  end.

(** The payload a completion hands to the oracle, if any. *)
Definition payload (c : Completion) : option (list byte) :=
  match c with
  | ReturnBuffer b => Some b
  | _ => None
  end.

(** The [response] the oracle callback gets for a completion: the
    simulation task passes [success ? result : "0x"]. *)
Definition response_of (c : Completion) : list byte := default [] (payload c).

(** In the words of the design: [i] is the lowest index that achieves the
    maximum score. *)
Definition lowest_argmax (xs : list Q) (i : nat) : Prop :=
  exists m, xs !! i = Some m
    /\ (forall (j : nat) x, xs !! j = Some x -> (x <= m)%Q)
    /\ (forall (j : nat) x, (j < i)%nat -> xs !! j = Some x -> ~ (x == m)%Q).

End Snapshot.

(** ** More of the contract: [bytes32ToString] *)

Module Text.
Import Consumer.

(** [i++] on a [uint8], checked. *)
Definition checked_incr8 (i : Z) : result Z :=
  if i + 1 <=? 255 then Ok (i + 1) else Fail (Panic 0x11).

(** [bytesArray[i] = x] on a memory array: out of range is Panic 0x32. *)
Definition assign_at (bytesArray : list byte) (i : Z) (x : byte) : result (list byte) :=
  if (0 <=? i) && (i <? Z.of_nat (length bytesArray))
  then Ok (<[Z.to_nat i := x]> bytesArray)
  else Fail (Panic 0x32).

(** [while (i < 32 && _bytes32[i] != 0) { i++; }], one test per unit of
    fuel. [&&] does not evaluate [_bytes32[i]] once [i < 32] fails. *)
Fixpoint scan (fuel : nat) (_bytes32 : list byte) (i : Z) : result Z :=
  match fuel with
  | O => Fail OutOfGas
  | S fuel' =>
      if i <? 32 then
        match index_at _bytes32 i with
        | Fail r => Fail r
        | Ok x =>
            if bool_decide (x <> x00) then
              match checked_incr8 i with
              | Fail r => Fail r
              | Ok i' => scan fuel' _bytes32 i'
              end
            else Ok i
        end
      else Ok i
  end.

(** [for (i = 0; i < 32 && _bytes32[i] != 0; i++) { bytesArray[i] = _bytes32[i]; }]
    from the current [i]. *)
Fixpoint copy (fuel : nat) (_bytes32 : list byte) (i : Z) (bytesArray : list byte)
  : result (list byte) :=
  match fuel with
  | O => Fail OutOfGas
  | S fuel' =>
      if i <? 32 then
        match index_at _bytes32 i with
        | Fail r => Fail r
        | Ok x =>
            if bool_decide (x <> x00) then
              match index_at _bytes32 i with
              | Fail r => Fail r
              | Ok y =>
                  match assign_at bytesArray i y with
                  | Fail r => Fail r
                  | Ok bytesArray' =>
                      match checked_incr8 i with
                      | Fail r => Fail r
                      | Ok i' => copy fuel' _bytes32 i' bytesArray'
                      end
                  end
              end
            else Ok bytesArray
        end
      else Ok bytesArray
  end.

Definition bytes32ToString_fuel (fuel : nat) (_bytes32 : list byte) : result (list byte) :=
  match scan fuel _bytes32 0 with
  | Fail r => Fail r
  | Ok i =>
      let bytesArray := replicate (Z.to_nat i) x00 in
      copy fuel _bytes32 0 bytesArray
  end.

(** Each loop makes at most 33 tests. *)
Definition bytes32ToString (_bytes32 : list byte) : result (list byte) :=
  bytes32ToString_fuel 33 _bytes32.

(** The bytes before the first zero byte. *)
Fixpoint upto_zero (b : list byte) : list byte :=
  match b with
  | [] => []
  | x :: b' => if bool_decide (x <> x00) then x :: upto_zero b' else []
  end.

End Text.

(** ** Hex strings *)

Module Hex.
Import Snapshot.

(** Every character of [s] is a hex digit. *)
Fixpoint all_hex (s : string) : bool :=
  match s with
  | EmptyString => true
  | String a rest => bool_decide (is_Some (hex_digit a)) && all_hex rest
  end.

End Hex.

(** ** Concrete inputs *)

Module Examples.
Import Consumer World.

Definition low_byte (z : Z) : byte := default x00 (Byte.of_N (Z.to_N (z mod 256))).

(** Stand-ins for the two primitives, to run the code on concrete inputs.
    They are not Keccak-256 and not the ABI encoding; the theorems hold for
    every instance. *)
Definition sample_primitives : Primitives :=
  {| keccak256 := fun b => take 32 (b ++ replicate 32 x00);
     abi_encode := fun to value data operation =>
                     low_byte to :: low_byte value :: low_byte operation :: data |}.

#[local] Existing Instance sample_primitives.

Definition target : Z := 0xAAAAAAAAAAAAAAAAAAAAAAAAAAAAAAAAAAAAAAAA.

(** The commitment of the transaction [{to: target, value: 0, data: 0x,
    operation: 0}] under the stand-ins. *)
Definition sample_commitment : list byte :=
  keccak256 (abi_encode target 0 [] 0).

Definition other_commitment : list byte := replicate 32 xff.

Definition request1 : list byte := replicate 31 x00 ++ [x01].
Definition request2 : list byte := replicate 31 x00 ++ [x02].

(** Request 1 was sent for proposal "p", and "p" holds the commitment. *)
Definition committed : Storage :=
  set_proposal "p" [sample_commitment] (set_request request1 "p" empty_storage).

(** A target that returns at once, and one that fails with a payload. *)
Definition succeeding : Callee := Halt true [].
Definition failing (payload : list byte) : External :=
  fun _ s => {| success := false; returnData := payload; storage_after := s; nested := [] |}.

(** The life of proposal "p": requested, fulfilled, executed. *)
Definition requested : Storage :=
  commit (handle (run succeeding)
            (ExecuteRequest true ["p"%string] (Ok request1))) empty_storage.
Definition fulfilled : Storage :=
  commit (handle (run succeeding)
            (FulfillRequest request1 sample_commitment [])) requested.
Definition finished : Storage :=
  commit (handle (run succeeding)
            (ExecuteProposal "p" target 0 [] 0)) fulfilled.

(** Or, instead of executing it, the owner asks for "p" to be resolved a
    second time. *)
Definition rerequested : Storage :=
  commit (handle (run succeeding)
            (ExecuteRequest true ["p"%string] (Ok request2))) fulfilled.

End Examples.

Module Votes.
Import Snapshot.

(** A vote on ["For"; "Against"] with scores 10 and 1 and quorum 5, whose
    plugin asks for [wanted] and carries one safe with one batch of one
    transaction [t], and the field [txString]. *)
Definition vote (state : string) (total : Q) (wanted : Value) (t : Transaction)
    (payloadField : Value) : Proposal :=
  {| choices := ["For"%string; "Against"%string];
     plugins := Some {| safeSnap := Some
       {| executableIf := wanted;
          safes := Some [ {| txs := Some [ {| hash := str "0x01";
                                              transactions := Some [t] |} ] |} ];
          txString := payloadField |} |};
     quorum := 5 # 1;
     scores := [10 # 1; 1 # 1]%Q;
     scores_state := state;
     scores_total := total |}.

(** [{to: 0xAA..AA, value: 0, data: 0x, operation: 0}] *)
Definition transfer : Transaction :=
  {| to := str "0xAAAAAAAAAAAAAAAAAAAAAAAAAAAAAAAAAAAAAAAA"; value := str "0";
     data := str "0x"; operation := str "0" |}.

(** The example of the design: scores [1, 5, 5] over ["A"; "B"; "C"]. *)
Definition tie : Proposal :=
  {| choices := ["A"%string; "B"%string; "C"%string]; plugins := None;
     quorum := 0 # 1; scores := [1 # 1; 5 # 1; 5 # 1]%Q;
     scores_state := "final"; scores_total := 11 # 1 |}.

End Votes.

Module MoreExamples.
Import Consumer World Examples.

(** Two proposals that hold the commitment of the same transaction. *)
Definition two_proposals : Storage :=
  set_proposal "q" [sample_commitment] committed.

(** A target that calls back to execute "q". *)
Definition calls_back : Callee :=
  Reenter (ExecuteProposalWithIndex "q" target 0 [] 0 0) (Halt true [])
    (fun ok => Halt ok []).

#[local] Existing Instance sample_primitives.

(** The commitment of the delegate call [{to: target, value: 0, data: 0x,
    operation: 1}], and the state in which request 1 was fulfilled with it. *)
Definition delegate_commitment : list byte :=
  keccak256 (abi_encode target 0 [] 1).
Definition delegated : Storage :=
  commit (handle (run succeeding)
            (FulfillRequest request1 delegate_commitment [])) requested.

Definition marks : Callee := Store (SetExecuted "q" true) (Halt true []).

(** The delegate call of "p" is executed against the code that marks "q". *)
Definition hijacked : Storage :=
  commit (handle (run marks) (ExecuteProposal "p" target 0 [] 1)) delegated.

(** Request 2 awaits its result. *)
Definition awaiting : Client.State :=
  Client.await request2 {| Client.pending := ∅; Client.storage := rerequested |}.

End MoreExamples.

(** * Properties *)

(** ** CommitmentCodec *)

Module CodecFacts.
Import Codec.

Lemma chunks_length n data : length (chunks n data) = n.
Proof. revert data; induction n as [|n IH]; intros data; simpl; [done | by rewrite IH]. Qed.

Lemma chunks_lookup n data (k : nat) :
  (k < n)%nat -> chunks n data !! k = Some (take 32 (drop (32 * k) data)).
Proof.
  revert data k; induction n as [|n IH]; intros data k Hk; [lia|].
  destruct k as [|k]; simpl.
  - by rewrite drop_0.
  - rewrite IH by lia. rewrite drop_drop. do 3 f_equal. lia.
Qed.

Lemma chunks_each n data c :
  (32 * n <= length data)%nat -> c ∈ chunks n data -> length c = 32%nat.
Proof.
  revert data; induction n as [|n IH]; intros data Hlen Hin; simpl in Hin.
  - by apply elem_of_nil in Hin.
  - apply elem_of_cons in Hin as [-> | Hin].
    + rewrite length_take. lia.
    + apply (IH (drop 32 data)); [rewrite length_drop; lia | done].
Qed.

Lemma chunks_concat n data :
  concat (chunks n data) = take (32 * n) data.
Proof.
  revert data; induction n as [|n IH]; intros data.
  - done.
  - cbn [chunks concat]. rewrite IH.
    replace (32 * S n)%nat with (32 + 32 * n)%nat by lia.
    apply take_take_drop.
Qed.

Lemma div32_bounds (len : nat) :
  (32 * (len / 32) <= len < 32 * (len / 32 + 1))%nat.
Proof.
  pose proof (Nat.div_mod_eq len 32) as E.
  pose proof (Nat.mod_upper_bound len 32) as B. lia.
Qed.

Lemma dataNb_nat (len : nat) : Z.to_nat (Z.of_nat len / 32) = (len / 32)%nat.
Proof.
  change 32 with (Z.of_nat 32). rewrite <- Nat2Z.inj_div. apply Nat2Z.id.
Qed.

(** The loop after [k] rounds: [i = 32 (k + 1)], [index = k], the first [k]
    cells written. It fills the rest with the remaining chunks. *)
Lemma loop_run (data : list byte) (n : nat) :
  (32 * n <= length data < 32 * (n + 1))%nat ->
  Z.of_nat (length data) + 32 <= uint256_max ->
  forall (fuel k : nat) (dl : list (list byte)),
    (k <= n)%nat -> (n - k < fuel)%nat -> length dl = n ->
    loop fuel data (32 * (Z.of_nat k + 1)) (Z.of_nat k) dl
    = Ok (take k dl ++ chunks (n - k) (drop (32 * k) data)).
Proof.
  intros Hn Hmax fuel. induction fuel as [|fuel IH]; intros k dl Hk Hfuel Hdl; [lia|].
  simpl. destruct (Z.leb_spec (32 * (Z.of_nat k + 1)) (Z.of_nat (length data))) as [Hle|Hgt].
  - assert (k < n)%nat as Hlt by lia.
    unfold store_at.
    replace (0 <=? Z.of_nat k) with true by (symmetry; apply Z.leb_le; lia).
    replace (Z.of_nat k <? Z.of_nat (length dl)) with true
      by (symmetry; apply Z.ltb_lt; lia).
    simpl. unfold checked_add.
    replace (Z.of_nat k + 1 <=? uint256_max) with true
      by (symmetry; apply Z.leb_le; lia).
    replace (32 * (Z.of_nat k + 1) + 32 <=? uint256_max) with true
      by (symmetry; apply Z.leb_le; lia).
    replace (Z.of_nat k + 1) with (Z.of_nat (S k)) by lia.
    replace (32 * Z.of_nat (S k) + 32) with (32 * (Z.of_nat (S k) + 1)) by lia.
    rewrite IH; [| lia | lia | by rewrite length_insert].
    f_equal. rewrite Nat2Z.id.
    replace (n - k)%nat with (S (n - S k)) by lia. simpl chunks.
    rewrite (take_S_r _ k (mload_add data (32 * Z.of_nat (S k))))
      by (apply list_lookup_insert_eq; lia).
    rewrite take_insert_ge by lia. rewrite <- app_assoc. cbn [app].
    unfold mload_add. rewrite drop_drop.
    f_equal. f_equal; [ f_equal; f_equal; lia | f_equal; f_equal; lia ].
  - assert (k = n) as -> by lia.
    rewrite Nat.sub_diag. simpl. rewrite app_nil_r.
    by rewrite <- Hdl, firstn_all.
Qed.

(** Any budget above [data.length / 32] gives the same result. *)
Lemma bytesToBytes32Array_fuel_decode (fuel : nat) (data : list byte) :
  Z.of_nat (length data) + 32 <= uint256_max ->
  (length data / 32 < fuel)%nat ->
  bytesToBytes32Array_fuel fuel data = Ok (decode data).
Proof.
  intros Hmax Hfuel. unfold bytesToBytes32Array_fuel, decode.
  rewrite dataNb_nat.
  pose proof (loop_run data (length data / 32) (div32_bounds _) Hmax
                fuel 0 (replicate (length data / 32) zero32)) as L.
  cbn [take app Z.of_nat] in L. rewrite Nat.sub_0_r, Nat.mul_0_r, drop_0 in L.
  apply L; [lia | lia | apply length_replicate].
Qed.

Lemma bytesToBytes32Array_decode (data : list byte) :
  Z.of_nat (length data) + 32 <= uint256_max ->
  bytesToBytes32Array data = Ok (decode data).
Proof.
  intros Hmax. apply bytesToBytes32Array_fuel_decode; [done | lia].
Qed.

(** C8. [bytesToBytes32Array] returns the consecutive 32-byte chunks of its
    input in order: [data.length / 32] of them, the [k]-th being bytes
    [32 k .. 32 k + 32), together the longest prefix of the input whose
    length is a multiple of 32; the bytes after it are dropped and no error
    is raised, on any budget that lets the loop finish. 64 bytes give 2
    commitments, 50 bytes give 1 (the first 32 bytes, the other 18 dropped),
    no bytes give none. The bound holds of every byte string that fits in
    memory. *)
Theorem decode_partitions (data : list byte) :
  Z.of_nat (length data) + 32 <= uint256_max ->
  bytesToBytes32Array data = Ok (decode data)
  /\ (forall fuel, (length data / 32 < fuel)%nat ->
        bytesToBytes32Array_fuel fuel data = Ok (decode data))
  /\ length (decode data) = (length data / 32)%nat
  /\ (forall k : nat, (k < length data / 32)%nat ->
        decode data !! k = Some (take 32 (drop (32 * k) data)))
  /\ (forall c, c ∈ decode data -> length c = 32%nat)
  /\ concat (decode data) = take (32 * (length data / 32)) data
  /\ (length data = 64%nat -> length (decode data) = 2%nat)
  /\ (length data = 50%nat ->
        decode data = [take 32 data] /\ length (drop 32 data) = 18%nat)
  /\ (data = [] -> bytesToBytes32Array data = Ok []).
Proof.
  intros Hmax. pose proof (div32_bounds (length data)) as B.
  split; [by apply bytesToBytes32Array_decode|].
  split; [intros fuel Hfuel; by apply bytesToBytes32Array_fuel_decode|].
  split; [apply chunks_length|].
  split; [intros k Hk; by apply chunks_lookup|].
  split; [intros c; apply chunks_each; lia|].
  split; [apply chunks_concat|].
  split; [|split].
  - intros E. unfold decode. rewrite chunks_length. by rewrite E.
  - intros E. unfold decode. rewrite E. split; [done|]. rewrite length_drop. lia.
  - by intros ->.
Qed.

Lemma decode_partitions_witness :
  bytesToBytes32Array (replicate 50 x01) = Ok [replicate 32 x01].
Proof.
  assert (Z.of_nat (length (replicate 50 x01)) + 32 <= uint256_max) as B
    by (vm_compute; discriminate).
  exact (proj1 (decode_partitions (replicate 50 x01) B)).
Defined.

End CodecFacts.

(** ** The execution gate *)

Module GateFacts.
Import Consumer World.

Section Gate.
Context `{Primitives}.

Lemma outcome_eta {A} (o : Outcome A) : {| res := res o; calls := calls o |} = o.
Proof. by destruct o. Qed.

Lemma bind_ret {A B} (a : A) (k : A -> M B) s : bind (ret a) k s = k a s.
Proof. unfold bind, ret; cbn [res calls app]. apply outcome_eta. Qed.

Lemma bind_read {A B} (f : Storage -> A) (k : A -> M B) s :
  bind (read f) k s = k (f s) s.
Proof. unfold bind, read; cbn [res calls app]. apply outcome_eta. Qed.

Lemma bind_write {B} (f : Storage -> Storage) (k : unit -> M B) s :
  bind (write f) k s = k tt (f s).
Proof. unfold bind, write; cbn [res calls app]. apply outcome_eta. Qed.

Lemma bind_revert {A B} (r : Revert) (k : A -> M B) s :
  bind (revert r) k s = reverted r.
Proof. done. Qed.

Lemma bind_require_true {B} reason (k : unit -> M B) s :
  bind (require true reason) k s = k tt s.
Proof. apply bind_ret. Qed.

Lemma bind_require_false {B} reason (k : unit -> M B) s :
  bind (require false reason) k s = reverted (Error reason).
Proof. done. Qed.

Lemma bind_lift_ok {A B} (a : A) (k : A -> M B) s : bind (lift (Ok a)) k s = k a s.
Proof. apply bind_ret. Qed.

Lemma bind_lift_fail {A B} (r : Revert) (k : A -> M B) s :
  bind (lift (Fail r)) k s = reverted r.
Proof. done. Qed.

Lemma exec_run (ext : External) to value data operation s :
  exec ext to value data (if operation =? 0 then CALL else DELEGATECALL) s
  = let c := dispatched to value data operation in
    let r := ext c s in
    {| res := Ok (success r, if success r then storage_after r else s);
       calls := c :: nested r |}.
Proof.
  unfold exec, dispatched. destruct (operation =? 0); simpl.
  - unfold bind, low_level, ret; simpl. by rewrite app_nil_r.
  - unfold bind, low_level, ret; simpl. by rewrite app_nil_r.
Qed.

(** The gate, case by case. *)
Lemma executeProposalWithIndex_run (ext : External) p to value data operation txIndex s :
  executeProposalWithIndex ext p to value data operation txIndex s
  = if isExecuted s p then reverted (Error "Proposal already executed")
    else
      match index_at (commitmentsOf s p) txIndex with
      | Fail r => reverted r
      | Ok commitment =>
          if bool_decide (keccak256 (abi_encode to value data operation) = commitment)
          then
            let c := dispatched to value data operation in
            let r := ext c (set_executed p true s) in
            if success r
            then {| res := Ok (tt, record_verified
                                     (receipt p to value data operation txIndex)
                                     (storage_after r));
                    calls := c :: nested r |}
            else {| res := Fail (Error "Module transaction failed");
                    calls := c :: nested r |}
          else reverted (Error "Tx hash mismatch")
      end.
Proof.
  unfold executeProposalWithIndex.
  rewrite bind_read. destruct (isExecuted s p) eqn:E; cbn [negb].
  { by rewrite bind_require_false. }
  rewrite bind_require_true, bind_write, bind_read.
  change (commitmentsOf (set_executed p true s) p) with (commitmentsOf s p).
  destruct (index_at (commitmentsOf s p) txIndex) as [commitment|r].
  2: { by rewrite bind_lift_fail. }
  rewrite bind_lift_ok.
  destruct (bool_decide (keccak256 (abi_encode to value data operation) = commitment)).
  2: { by rewrite bind_require_false. }
  rewrite bind_require_true.
  unfold bind at 1. rewrite exec_run. cbn zeta. cbn [res calls].
  destruct (success (ext (dispatched to value data operation) (set_executed p true s))).
  - rewrite bind_require_true. unfold write. cbn [res calls]. by rewrite app_nil_r.
  - rewrite bind_require_false. cbn [res calls reverted]. by rewrite app_nil_r.
Qed.

Lemma fulfillRequest_run requestId response err s :
  fulfillRequest requestId response err s
  = if isExecuted s (requestOf s requestId)
    then reverted (Error "Proposal already executed")
    else
      match Codec.bytesToBytes32Array response with
      | Fail r => reverted r
      | Ok decoded =>
          {| res := Ok (tt, emit (OCRResponse requestId response err)
                              (set_proposal (requestOf s requestId) decoded s));
             calls := [] |}
      end.
Proof.
  unfold fulfillRequest. rewrite !bind_read.
  destruct (isExecuted s (requestOf s requestId)); cbn [negb].
  { by rewrite bind_require_false. }
  rewrite bind_require_true.
  destruct (Codec.bytesToBytes32Array response) as [decoded|r].
  2: { by rewrite bind_lift_fail. }
  by rewrite bind_lift_ok, bind_read, bind_write.
Qed.

Lemma executeRequest_run isOwner args sendRequest s :
  executeRequest isOwner args sendRequest s
  = if isOwner then
      match index_at args 0 with
      | Fail r => reverted r
      | Ok p =>
          if isExecuted s p then reverted (Error "Proposal already executed")
          else
            match sendRequest with
            | Fail r => reverted r
            | Ok requestId =>
                {| res := Ok (requestId, set_request requestId p s); calls := [] |}
            end
      end
    else reverted (Error "Only callable by owner").
Proof.
  unfold executeRequest. destruct isOwner.
  2: { by rewrite bind_require_false. }
  rewrite bind_require_true.
  destruct (index_at args 0) as [p|r].
  2: { by rewrite bind_lift_fail. }
  rewrite bind_lift_ok, bind_read.
  destruct (isExecuted s p); cbn [negb].
  { by rewrite bind_require_false. }
  rewrite bind_require_true.
  destruct sendRequest as [requestId|r].
  2: { by rewrite bind_lift_fail. }
  by rewrite !bind_lift_ok, bind_write.
Qed.

(** *** Reading the storage after a write *)

Lemma isExecuted_set_executed p b s q :
  isExecuted (set_executed p b s) q = if decide (p = q) then b else isExecuted s q.
Proof.
  unfold isExecuted, set_executed; cbn [executed].
  rewrite lookup_insert. by destruct (decide (p = q)).
Qed.

Lemma commitmentsOf_set_proposal p c s q :
  commitmentsOf (set_proposal p c s) q = if decide (p = q) then c else commitmentsOf s q.
Proof.
  unfold commitmentsOf, set_proposal; cbn [proposals].
  rewrite lookup_insert. by destruct (decide (p = q)).
Qed.

Lemma index_at_nonempty {A} (a : list A) i x : index_at a i = Ok x -> a <> [].
Proof. intros E ->. unfold index_at in E. by destruct (0 <=? i). Qed.

(** *** The storage only evolves *)

Lemma evolves_refl s : evolves s s.
Proof. unfold evolves; naive_solver. Qed.

Lemma evolves_trans s1 s2 s3 : evolves s1 s2 -> evolves s2 s3 -> evolves s1 s3.
Proof.
  intros (F1 & C1 & V1 & G1) (F2 & C2 & V2 & G2). repeat split.
  - auto.
  - intros p E. rewrite C2 by auto. auto.
  - auto.
  - intros p E3. destruct (G2 p E3) as [E2 | g]; [|by right].
    destruct (G1 p E2) as [E1 | (v & Hv & Hp & Hi)]; [by left|].
    right. exists v. rewrite C2 by done. auto.
Qed.

Lemma executeRequest_evolves isOwner args sendRequest s :
  evolves s (commit (executeRequest isOwner args sendRequest) s).
Proof.
  unfold commit. rewrite executeRequest_run.
  destruct isOwner; [|apply evolves_refl].
  destruct (index_at args 0) as [p|]; [|apply evolves_refl].
  destruct (isExecuted s p); [apply evolves_refl|].
  destruct sendRequest as [requestId|]; [|apply evolves_refl].
  cbn [res]. unfold evolves; naive_solver.
Qed.

Lemma fulfillRequest_evolves requestId response err s :
  evolves s (commit (fulfillRequest requestId response err) s).
Proof.
  unfold commit. rewrite fulfillRequest_run.
  destruct (isExecuted s (requestOf s requestId)) eqn:E; [apply evolves_refl|].
  destruct (Codec.bytesToBytes32Array response) as [decoded|]; [|apply evolves_refl].
  cbn [res]. repeat split.
  - auto.
  - intros p Ep.
    change (commitmentsOf (emit ?e ?t) p) with (commitmentsOf t p).
    rewrite commitmentsOf_set_proposal. destruct (decide (requestOf s requestId = p)); [|done].
    congruence.
  - auto.
  - intros p Ep. by left.
Qed.

Lemma executeProposalWithIndex_evolves (ext : External) p to value data operation txIndex s :
  (forall c t, evolves t (storage_after (ext c t))) ->
  evolves s (commit (executeProposalWithIndex ext p to value data operation txIndex) s).
Proof.
  intros Hext. unfold commit. rewrite executeProposalWithIndex_run.
  destruct (isExecuted s p) eqn:E; [apply evolves_refl|].
  destruct (index_at (commitmentsOf s p) txIndex) as [commitment|] eqn:I; [|apply evolves_refl].
  case_bool_decide as Hhash; [|apply evolves_refl].
  cbn zeta.
  pose proof (Hext (dispatched to value data operation) (set_executed p true s))
    as (F & C & V & G).
  destruct (success _); [|apply evolves_refl].
  cbn [res].
  set (s2 := storage_after _) in *.
  assert (isExecuted (set_executed p true s) p = true) as Ep.
  { rewrite isExecuted_set_executed. by rewrite decide_True. }
  repeat split.
  - intros q Eq. apply (F q). rewrite isExecuted_set_executed.
    by destruct (decide (p = q)).
  - intros q Eq.
    change (commitmentsOf (record_verified ?v ?t) q) with (commitmentsOf t q).
    rewrite C; [done|]. rewrite isExecuted_set_executed. by destruct (decide (p = q)).
  - intros v Hv. unfold record_verified; cbn [verified].
    apply elem_of_app. left. by apply V.
  - intros q Eq.
    change (isExecuted (record_verified ?v ?t) q) with (isExecuted t q) in Eq.
    destruct (G q Eq) as [E1 | (v & Hv & Hp & Hi)].
    + rewrite isExecuted_set_executed in E1.
      destruct (decide (p = q)) as [<-|]; [|by left].
      right. exists (receipt p to value data operation txIndex).
      split; [|split].
      * unfold record_verified; cbn [verified]. apply elem_of_app. right.
        by apply list_elem_of_singleton.
      * done.
      * change (commitmentsOf (record_verified ?v ?t) p) with (commitmentsOf t p).
        rewrite (C p Ep). cbn [receipt v_index v_to v_value v_data v_operation].
        change (commitmentsOf (set_executed p true s) p) with (commitmentsOf s p).
        by rewrite I, Hhash.
    + right. exists v. split; [|split; [done|]].
      * unfold record_verified; cbn [verified]. apply elem_of_app. by left.
      * done.
Qed.

Lemma handle_evolves (ext : External) m s :
  (forall c t, evolves t (storage_after (ext c t))) ->
  evolves s (commit (handle ext m) s).
Proof.
  intros Hext. destruct m as [isOwner args sendRequest | requestId response err | | ].
  - pose proof (executeRequest_evolves isOwner args sendRequest s) as E.
    unfold commit, handle in *. unfold bind.
    destruct (res (executeRequest isOwner args sendRequest s)) as [[a s']|]; [|done].
    done.
  - apply fulfillRequest_evolves.
  - by apply executeProposalWithIndex_evolves.
  - by apply executeProposalWithIndex_evolves.
Qed.

Lemma run_evolves (c : Callee) :
  quiet c -> forall call s, evolves s (storage_after (run c call s)).
Proof.
  induction 1 as [ok ret | k Hk IH | m inner k Hinner IHinner Hk IHk]; intros call s.
  - apply evolves_refl.
  - apply IH.
  - cbn [run storage_after].
    eapply evolves_trans; [apply (handle_evolves (run inner) m s IHinner) | apply IHk].
Qed.

(** *** The record kept outside agrees with the contract *)

Lemma gate_verified (ext : External) (inner : LowLevelCall -> Storage -> list Verified)
    p to value data operation txIndex s :
  (forall call t, verified (storage_after (ext call t)) = verified t ++ inner call t) ->
  verified (commit (executeProposalWithIndex ext p to value data operation txIndex) s)
  = verified s ++ gate_log ext inner p to value data operation txIndex s.
Proof.
  intros Hext. unfold commit, gate_log. rewrite executeProposalWithIndex_run.
  destruct (isExecuted s p); [by rewrite app_nil_r|].
  destruct (index_at (commitmentsOf s p) txIndex) as [commitment|]; [|by rewrite app_nil_r].
  case_bool_decide; [|by rewrite app_nil_r]. cbn zeta.
  destruct (success _); [|by rewrite app_nil_r]. cbn [res].
  unfold record_verified; cbn [verified]. rewrite Hext. by rewrite <- app_assoc.
Qed.

Lemma handle_verified (ext : External) (inner : LowLevelCall -> Storage -> list Verified) m s :
  (forall call t, verified (storage_after (ext call t)) = verified t ++ inner call t) ->
  verified (commit (handle ext m) s) = verified s ++ handle_log ext inner m s.
Proof.
  intros Hext. destruct m as [isOwner args sendRequest | requestId response err | | ].
  - cbn [handle_log]. rewrite app_nil_r. unfold commit, handle, bind.
    rewrite executeRequest_run.
    destruct isOwner; [|done]. destruct (index_at args 0) as [a|]; [|done].
    destruct (isExecuted s a); [done|]. by destruct sendRequest.
  - cbn [handle_log]. rewrite app_nil_r. unfold commit, handle.
    rewrite fulfillRequest_run.
    destruct (isExecuted s (requestOf s requestId)); [done|].
    by destruct (Codec.bytesToBytes32Array response).
  - by apply gate_verified.
  - by apply gate_verified.
Qed.

Lemma run_verified (c : Callee) :
  forall call s, verified (storage_after (run c call s)) = verified s ++ run_log c call s.
Proof.
  induction c as [ok ret | k IH | w k IH | m inner IHinner k IHk]; intros call s.
  - cbn. by rewrite app_nil_r.
  - apply IH.
  - cbn [run run_log]. rewrite IH. by destruct (decide _), w.
  - cbn [run run_log storage_after]. rewrite IHk.
    rewrite (handle_verified (run inner) (run_log inner) m s IHinner).
    by rewrite <- app_assoc.
Qed.

Lemma traced_sound s h : traced s h -> verified s = h /\ evolves empty_storage s.
Proof.
  induction 1 as [| s h m c Hs [Hv He] Hc]; [split; [done | apply evolves_refl]|].
  split.
  - rewrite (handle_verified (run c) (run_log c) m s (run_verified c)). by rewrite Hv.
  - eapply evolves_trans; [exact He|]. apply handle_evolves. by apply run_evolves.
Qed.

Lemma traced_reachable s h : traced s h -> reachable s.
Proof. induction 1; [apply reachable_deployed | by apply reachable_transaction]. Qed.


(** C2. Hash mismatch. For a proposal not yet executed and a transaction
    whose hash differs from the commitment stored at [txIndex], the call
    fails with "Tx hash mismatch" without any dispatch, and the storage
    is what it was: the executed flag is still false. *)
Theorem hash_mismatch_atomic (ext : External) s p to value data operation txIndex commitment :
  isExecuted s p = false ->
  index_at (commitmentsOf s p) txIndex = Ok commitment ->
  keccak256 (abi_encode to value data operation) <> commitment ->
  let attempt := executeProposalWithIndex ext p to value data operation txIndex in
  res (attempt s) = Fail (Error "Tx hash mismatch")
  /\ calls (attempt s) = []
  /\ commit attempt s = s
  /\ isExecuted (commit attempt s) p = false
  /\ (txIndex = 0 ->
       executeProposal ext p to value data operation s = reverted (Error "Tx hash mismatch")).
Proof.
  intros E I Hhash attempt.
  assert (attempt s = reverted (Error "Tx hash mismatch")) as R.
  { subst attempt. rewrite executeProposalWithIndex_run, E, I.
    by rewrite bool_decide_eq_false_2. }
  unfold commit. rewrite R. cbn [reverted res calls].
  repeat split; try done.
  intros ->. exact R.
Qed.

(** An entry of the record is there because the low-level call of its
    dispatch returned success, for a proposal not executed, against the
    commitment at its index. *)
Lemma gate_log_granted (ext : External) (inner : LowLevelCall -> Storage -> list Verified)
    p to value data operation txIndex s :
  gate_log ext inner p to value data operation txIndex s <> [] ->
  isExecuted s p = false
  /\ index_at (commitmentsOf s p) txIndex = Ok (keccak256 (abi_encode to value data operation))
  /\ success (ext (dispatched to value data operation) (set_executed p true s)) = true
  /\ receipt p to value data operation txIndex
     ∈ gate_log ext inner p to value data operation txIndex s.
Proof.
  unfold gate_log. destruct (isExecuted s p); [done|].
  destruct (index_at (commitmentsOf s p) txIndex) as [commitment|]; [|done].
  case_bool_decide as Hhash; [|done]. cbn zeta.
  destruct (success _); [|done]. intros _.
  split; [done|]. split; [by rewrite Hhash|]. split; [done|].
  apply elem_of_app. right. by apply list_elem_of_singleton.
Qed.

(** C3, as the code has it. In every state reached by transactions whose
    callees are quiet (no target, delegate-called or re-entered, stores to
    the contract's mappings itself), an executed proposal has a non-empty
    commitment list, and the record kept outside the contract holds a
    dispatch for it whose transaction hashes to the commitment stored at its
    index. The record gains an entry from a call of the gate only when the
    proposal was not executed, the hash matched the commitment at the index
    and the low-level call issued for it returned success. *)
Theorem registry_invariant s h p :
  traced s h ->
  isExecuted s p = true ->
  commitmentsOf s p <> []
  /\ (exists v, v ∈ h /\ v_proposal v = p /\
        index_at (commitmentsOf s p) (v_index v)
        = Ok (keccak256 (abi_encode (v_to v) (v_value v) (v_data v) (v_operation v))))
  /\ (forall ext inner q to value data operation txIndex s0,
        gate_log ext inner q to value data operation txIndex s0 <> [] ->
        isExecuted s0 q = false
        /\ index_at (commitmentsOf s0 q) txIndex
           = Ok (keccak256 (abi_encode to value data operation))
        /\ success (ext (dispatched to value data operation) (set_executed q true s0)) = true).
Proof.
  intros Hs E. destruct (traced_sound s h Hs) as (Hv & _ & _ & _ & G).
  destruct (G p E) as [E0 | g]; [done|].
  destruct g as (v & Hin & Hp & Hi).
  split; [by eapply index_at_nonempty|]. split.
  - exists v. by rewrite <- Hv.
  - intros ext inner q to value data operation txIndex s0 Hne.
    destruct (gate_log_granted ext inner q to value data operation txIndex s0 Hne)
      as (A & B & C & _). done.
Qed.

(** C10. Index out of bounds. For a proposal not yet executed and an
    index at or past the end of its commitment list (the empty list
    included), the call fails with the compiler's index panic, not with
    the hash mismatch; nothing is dispatched and the executed flag is
    still false. *)
Theorem index_out_of_bounds (ext : External) s p to value data operation txIndex :
  isExecuted s p = false ->
  Z.of_nat (length (commitmentsOf s p)) <= txIndex ->
  let attempt := executeProposalWithIndex ext p to value data operation txIndex in
  res (attempt s) = Fail (Panic 0x32)
  /\ res (attempt s) <> Fail (Error "Tx hash mismatch")
  /\ calls (attempt s) = []
  /\ commit attempt s = s
  /\ isExecuted (commit attempt s) p = false.
Proof.
  intros E Hlen attempt.
  assert (attempt s = reverted (Panic 0x32)) as R.
  { subst attempt. rewrite executeProposalWithIndex_run, E.
    unfold index_at. destruct (0 <=? txIndex); [|done].
    rewrite (lookup_ge_None_2 (commitmentsOf s p) (Z.to_nat txIndex)) by lia. done. }
  unfold commit. rewrite R. cbn [reverted res calls]. by repeat split.
Qed.

(** C6. What the dispatcher does when the target fails. [exec] returns
    the status of the low-level call from inside both branches, so the
    check of the return data below them is never reached: whatever the
    payload, empty or not, [exec] returns false and the gate fails with
    "Module transaction failed"; the payload is not re-raised and a
    silent failure is not reported as such. *)
Theorem dispatch_failure_not_bubbled (payload : list byte) to value data operation :
  let s := set_proposal "p" [keccak256 (abi_encode to value data operation)] empty_storage in
  let ext := Examples.failing payload in
  res (exec ext to value data (if operation =? 0 then CALL else DELEGATECALL) s)
  = Ok (false, s)
  /\ res (executeProposalWithIndex ext "p" to value data operation 0 s)
     = Fail (Error "Module transaction failed")
  /\ res (executeProposalWithIndex ext "p" to value data operation 0 s)
     <> Fail (Raw payload)
  /\ res (executeProposalWithIndex ext "p" to value data operation 0 s)
     <> Fail (Error "Transaction reverted silently").
Proof.
  intros s ext.
  assert (res (executeProposalWithIndex ext "p" to value data operation 0 s)
          = Fail (Error "Module transaction failed")) as R.
  { assert (isExecuted s "p" = false) as E by reflexivity.
    assert (index_at (commitmentsOf s "p") 0
            = Ok (keccak256 (abi_encode to value data operation))) as I.
    { subst s. by rewrite commitmentsOf_set_proposal, decide_True. }
    rewrite executeProposalWithIndex_run, E, I.
    by rewrite bool_decide_eq_true_2. }
  rewrite R. repeat split; try done.
  rewrite exec_run. done.
Qed.

End Gate.

(** *** The oracle callback *)

Lemma fulfillRequest_executed requestId response err s :
  isExecuted s (requestOf s requestId) = true ->
  fulfillRequest requestId response err s = reverted (Error "Proposal already executed")
  /\ commit (fulfillRequest requestId response err) s = s.
Proof.
  intros E. unfold commit. rewrite fulfillRequest_run, E. done.
Qed.

Lemma fulfillRequest_commit requestId response err s :
  isExecuted s (requestOf s requestId) = false ->
  commit (fulfillRequest requestId response err) s
  = match Codec.bytesToBytes32Array response with
    | Ok decoded =>
        emit (OCRResponse requestId response err)
          (set_proposal (requestOf s requestId) decoded s)
    | Fail _ => s
    end.
Proof.
  intros E. unfold commit. rewrite fulfillRequest_run, E.
  by destruct (Codec.bytesToBytes32Array response).
Qed.

(** C5, as the code has it. [fulfillRequest] stores the decoding of the
    response whatever [err] holds. For a proposal not yet executed, a
    result that carries an error, and so an empty response, leaves the
    proposal with an empty commitment list: no commitment is stored, and a
    list stored before is replaced by the empty one; the other proposals,
    the executed flags and the request correlation are untouched. Through
    the entry point of the oracle, a result for a request id that awaits one
    is stored and consumes the id, and a redelivery under the consumed id is
    ignored: the state, the stored commitment sequence included, is what
    the first delivery left. *)
Theorem fulfill_error_stores_empty (st : Client.State)
    (requestId response err response' err' : list byte) :
  requestId ∈ Client.pending st ->
  isExecuted (Client.storage st) (requestOf (Client.storage st) requestId) = false ->
  Z.of_nat (length response) + 32 <= uint256_max ->
  let s := Client.storage st in
  let p := requestOf s requestId in
  let s1 := commit (fulfillRequest requestId [] err) s in
  let st1 := Client.deliver requestId response err st in
  commitmentsOf s1 p = []
  /\ Client.storage (Client.deliver requestId [] err st) = s1
  /\ (forall q, q <> p -> commitmentsOf s1 q = commitmentsOf s q)
  /\ executed s1 = executed s
  /\ functionRequestsForProposals s1 = functionRequestsForProposals s
  /\ commitmentsOf (Client.storage st1) p = Codec.decode response
  /\ (requestId ∉ Client.pending st1)
  /\ Client.deliver requestId response' err' st1 = st1
  /\ commitmentsOf (Client.storage (Client.deliver requestId response' err' st1)) p
     = Codec.decode response.
Proof.
  intros Hpend E Hmax s p s1 st1. change (isExecuted s p = false) in E.
  assert (s1 = emit (OCRResponse requestId [] err) (set_proposal p [] s)) as S1.
  { subst s1. by rewrite fulfillRequest_commit. }
  assert (st1 = {| Client.pending := Client.pending st ∖ {[requestId]};
                   Client.storage := emit (OCRResponse requestId response err)
                                       (set_proposal p (Codec.decode response) s) |}) as ST1.
  { subst st1. unfold Client.deliver. rewrite decide_True by done.
    rewrite fulfillRequest_run. fold s. fold p. rewrite E.
    by rewrite CodecFacts.bytesToBytes32Array_decode. }
  assert (requestId ∉ Client.pending st1) as Hgone.
  { rewrite ST1. cbn [Client.pending]. intros Hin.
    apply elem_of_difference in Hin as [_ Hin]. apply Hin. by apply elem_of_singleton. }
  assert (Client.deliver requestId response' err' st1 = st1) as Hagain.
  { unfold Client.deliver. by rewrite decide_False. }
  assert (commitmentsOf (Client.storage st1) p = Codec.decode response) as Hstored.
  { rewrite ST1. cbn [Client.storage].
    change (commitmentsOf (emit ?e ?t) p) with (commitmentsOf t p).
    rewrite commitmentsOf_set_proposal. by rewrite decide_True. }
  split; [|split; [|split; [|split; [|split; [|split; [|split; [|split]]]]]]].
  - rewrite S1. change (commitmentsOf (emit ?e ?t) p) with (commitmentsOf t p).
    rewrite commitmentsOf_set_proposal. by rewrite decide_True.
  - unfold Client.deliver. rewrite decide_True by done.
    rewrite fulfillRequest_run. fold s. fold p. rewrite E.
    change (Codec.bytesToBytes32Array []) with (@Ok (list (list byte)) []).
    cbn [res Client.storage]. by rewrite S1.
  - intros q Hq. rewrite S1. change (commitmentsOf (emit ?e ?t) q) with (commitmentsOf t q).
    rewrite commitmentsOf_set_proposal. by rewrite decide_False.
  - by rewrite S1.
  - by rewrite S1.
  - exact Hstored.
  - exact Hgone.
  - exact Hagain.
  - by rewrite Hagain.
Qed.

(** *** The theorems at concrete inputs *)

Import Examples MoreExamples.
#[local] Existing Instance sample_primitives.



Lemma hash_mismatch_atomic_witness :
  res (executeProposalWithIndex (run succeeding)
         "p" target 1 [] 0 0 committed) = Fail (Error "Tx hash mismatch")
  /\ isExecuted (commit (executeProposalWithIndex (run succeeding)
                           "p" target 1 [] 0 0) committed) "p" = false.
Proof.
  destruct (hash_mismatch_atomic (run succeeding) committed "p"
              target 1 [] 0 0 sample_commitment)
    as (R & _ & _ & E & _);
    [reflexivity | reflexivity | vm_compute; discriminate |].
  split; [exact R | exact E].
Defined.

Lemma registry_invariant_witness :
  commitmentsOf finished "p" <> [].
Proof.
  eapply (registry_invariant finished _ "p").
  - unfold finished, fulfilled, requested.
    repeat (eapply traced_transaction; [| apply quiet_Halt]). apply traced_deployed.
  - reflexivity.
Defined.

(** C3 as stated fails. "p" holds the commitment of a delegate call; the
    code it runs sets the flag of "q" on the contract's storage: the state is
    reached by three transactions, "q" is executed, and "q" holds no
    commitment. *)
Lemma invariant_fails_under_delegatecall :
  reachable hijacked
  /\ isExecuted hijacked "q" = true
  /\ commitmentsOf hijacked "q" = [].
Proof.
  split; [|split; reflexivity].
  unfold hijacked, delegated, requested. repeat apply reachable_transaction.
  apply reachable_deployed.
Qed.

Lemma index_out_of_bounds_witness :
  res (executeProposalWithIndex (run succeeding)
         "p" target 0 [] 0 1 committed) = Fail (Panic 0x32)
  /\ isExecuted (commit (executeProposalWithIndex (run succeeding)
                           "p" target 0 [] 0 1) committed) "p" = false.
Proof.
  destruct (index_out_of_bounds (run succeeding) committed "p"
              target 0 [] 0 1)
    as (R & _ & _ & _ & E); [reflexivity | vm_compute; discriminate |].
  split; [exact R | exact E].
Defined.

Lemma fulfill_error_stores_empty_witness :
  commitmentsOf (commit (fulfillRequest request2 [] [x01]) rerequested) "p" = []
  /\ Client.deliver request2 other_commitment [] (Client.deliver request2 [] [x01] awaiting)
     = Client.deliver request2 [] [x01] awaiting.
Proof.
  destruct (fulfill_error_stores_empty awaiting request2 [] [x01] other_commitment [])
    as (R & _ & _ & _ & _ & _ & _ & Again & _).
  - apply elem_of_union. left. by apply elem_of_singleton.
  - reflexivity.
  - vm_compute. discriminate.
  - split; [exact R | exact Again].
Defined.

(** C5 as stated fails. "p" holds the commitment delivered for request 1;
    the owner has sent request 2 for it, and the result of request 2 carries
    an error: after the callback the commitment is gone. *)
Lemma fulfill_error_clears_commitments :
  requestOf rerequested request2 = "p"%string
  /\ isExecuted rerequested "p" = false
  /\ commitmentsOf rerequested "p" = [sample_commitment]
  /\ commitmentsOf (commit (fulfillRequest request2 [] [x01]) rerequested) "p" = []
  /\ commitmentsOf (commit (fulfillRequest request2 [] [x01]) rerequested) "p"
     <> commitmentsOf rerequested "p".
Proof. repeat split; try reflexivity. vm_compute. discriminate. Qed.

End GateFacts.

(** ** The resolver *)

Module ResolverFacts.
Import Snapshot.

Lemma max2_fold (xs : list Q) (a : Q) :
  exists m, fold_left max2 xs (Finite a) = Finite m
    /\ (a <= m)%Q
    /\ (forall x, x ∈ xs -> (x <= m)%Q)
    /\ (m = a \/ m ∈ xs).
Proof.
  revert a; induction xs as [|x xs IH]; intros a; cbn [fold_left max2].
  - exists a. split; [done|]. split; [apply Qle_refl|]. split; [|by left].
    intros x Hx. by apply elem_of_nil in Hx.
  - destruct (Qle_bool x a) eqn:L.
    + apply Qle_bool_iff in L.
      destruct (IH a) as (m & E & Ha & Hall & Hin). exists m.
      split; [done|]. split; [done|]. split.
      * intros y Hy. apply elem_of_cons in Hy as [-> | Hy]; [|by apply Hall].
        by eapply Qle_trans.
      * destruct Hin as [-> | Hin]; [by left | right; by apply elem_of_cons; right].
    + assert (a <= x)%Q as Hax.
      { apply Qlt_le_weak, Qnot_le_lt. intros C. apply Qle_bool_iff in C. congruence. }
      destruct (IH x) as (m & E & Hx & Hall & Hin). exists m.
      split; [done|]. split; [by eapply Qle_trans|]. split.
      * intros y Hy. apply elem_of_cons in Hy as [-> | Hy]; [done | by apply Hall].
      * right. apply elem_of_cons. destruct Hin as [-> | Hin]; [by left | by right].
Qed.

(** [Math.max] of a non-empty array is one of its elements and bounds them all. *)
Lemma Math_max_spec (xs : list Q) :
  xs <> [] ->
  exists m, Math_max xs = Finite m /\ m ∈ xs /\ (forall x, x ∈ xs -> (x <= m)%Q).
Proof.
  destruct xs as [|a xs]; [done|]. intros _.
  unfold Math_max. cbn [fold_left max2].
  destruct (max2_fold xs a) as (m & E & Ha & Hall & Hin). exists m.
  split; [done|]. split.
  - apply elem_of_cons. destruct Hin as [-> | Hin]; [by left | by right].
  - intros x Hx. apply elem_of_cons in Hx as [-> | Hx]; [done | by apply Hall].
Qed.

Lemma indexOf_from_first (xs : list Q) (m : Q) (i : nat) (z : Z) :
  (exists x, xs !! i = Some x /\ (x == m)%Q) ->
  (forall (j : nat) x, (j < i)%nat -> xs !! j = Some x -> ~ (x == m)%Q) ->
  indexOf_from xs (Finite m) z = z + Z.of_nat i.
Proof.
  revert i z; induction xs as [|y xs IH]; intros i z (x & Hx & Hxm) Hmin.
  - by rewrite lookup_nil in Hx.
  - cbn [indexOf_from num_eq]. destruct i as [|i].
    + cbn in Hx. injection Hx as ->.
      apply Qeq_bool_iff in Hxm. rewrite Hxm. lia.
    + destruct (Qeq_bool y m) eqn:Q.
      * exfalso. apply (Hmin 0%nat y); [lia | done | by apply Qeq_bool_iff].
      * rewrite (IH i (z + 1)); [lia | by exists x |].
        intros j x' Hj Hx'. apply (Hmin (S j) x'); [lia | done].
Qed.

(** The script's [winningChoice] is the choice at the lowest index that
    achieves the maximum score. *)
Lemma winningChoice_lowest_argmax (p : Proposal) (i : nat) :
  lowest_argmax (scores p) i ->
  winningChoice p = element (choices p) (Z.of_nat i).
Proof.
  intros (m & Hi & Hmax & Hmin). unfold winningChoice.
  destruct (Math_max_spec (scores p)) as (m' & E & Hin & Hall).
  { intros N. rewrite N in Hi. by rewrite lookup_nil in Hi. }
  assert (m' == m)%Q as Hmm.
  { apply Qle_antisym.
    - apply list_elem_of_lookup in Hin as (j & Hj). by apply (Hmax j).
    - apply Hall. apply list_elem_of_lookup. by exists i. }
  rewrite E. unfold indexOf.
  rewrite (indexOf_from_first (scores p) m' i 0); [done | |].
  - exists m. split; [done|]. by symmetry.
  - intros j x Hj Hx C. apply (Hmin j x Hj Hx). by rewrite C.
Qed.

(** C7, as the code has it. A vote whose [scores_state] is not "final"
    makes the script throw "Snapshot vote is not final" whatever its scores
    and quorum are; a final vote with [scores_total < quorum] makes it throw
    "Snapshot vote quorum not reached". Either way the script hands over no
    payload. The error result delivered to the callback in its place, with
    an empty response, stores no commitment: for an executed proposal the
    callback reverts and the registry is unchanged; otherwise the proposal
    bound to the request id is left with an empty commitment list, in place
    of whatever it held, one [OCRResponse] event is logged, and the other
    proposals, the executed flags and the request bindings are as they
    were. *)
Theorem resolver_validation_order (p : Proposal) :
  scores_state p <> "final"%string \/ (scores_total p < quorum p)%Q ->
  let outcome := resolve (Answer (Some p)) in
  (scores_state p <> "final"%string ->
     outcome = Throw (JsError "Snapshot vote is not final"))
  /\ (scores_state p = "final"%string ->
     outcome = Throw (JsError "Snapshot vote quorum not reached"))
  /\ payload outcome = None
  /\ (forall (s : Consumer.Storage) (requestId err : list byte),
       let q := Consumer.requestOf s requestId in
       let s' := Consumer.commit
                   (Consumer.fulfillRequest requestId (response_of outcome) err) s in
       (Consumer.isExecuted s q = true -> s' = s)
       /\ (Consumer.isExecuted s q = false ->
            Consumer.commitmentsOf s' q = []
            /\ (forall q', q' <> q -> Consumer.commitmentsOf s' q' = Consumer.commitmentsOf s q')
            /\ Consumer.executed s' = Consumer.executed s
            /\ Consumer.functionRequestsForProposals s'
               = Consumer.functionRequestsForProposals s
            /\ Consumer.events s'
               = Consumer.events s ++ [Consumer.OCRResponse requestId [] err])).
Proof.
  intros Hfail outcome.
  assert ((scores_state p <> "final"%string ->
             outcome = Throw (JsError "Snapshot vote is not final"))
          /\ (scores_state p = "final"%string ->
             outcome = Throw (JsError "Snapshot vote quorum not reached"))) as [Hn Hq].
  { subst outcome. cbn [resolve]. unfold resolve_proposal. split.
    - intros Hstate. apply String.eqb_neq in Hstate. by rewrite Hstate.
    - intros Hstate. destruct Hfail as [Hne | Hlt]; [done|].
      rewrite Hstate. cbn [String.eqb negb].
      assert (lt (scores_total p) (quorum p) = true) as ->; [|done].
      unfold lt. destruct (Qle_bool (quorum p) (scores_total p)) eqn:L; [|done].
      apply Qle_bool_iff in L. exfalso. by apply (Qlt_not_le _ _ Hlt). }
  assert (payload outcome = None) as Hp.
  { destruct (String.eqb_spec (scores_state p) "final") as [E | E].
    - by rewrite (Hq E).
    - by rewrite (Hn E). }
  split; [exact Hn|]. split; [exact Hq|]. split; [exact Hp|].
  intros s requestId err q s'. subst s'. unfold response_of. rewrite Hp. cbn [default].
  split.
  - intros E. by apply GateFacts.fulfillRequest_executed.
  - intros E. rewrite GateFacts.fulfillRequest_commit by exact E.
    change (Codec.bytesToBytes32Array []) with (@Ok (list (list byte)) []). cbv iota beta.
    fold q.
    change (Consumer.commitmentsOf (Consumer.emit ?e ?t)) with (Consumer.commitmentsOf t).
    split; [|split; [|done]].
    + rewrite GateFacts.commitmentsOf_set_proposal. by rewrite decide_True.
    + intros q' Hq'. rewrite GateFacts.commitmentsOf_set_proposal. by rewrite decide_False.
Qed.


(** C4. What the payload is made of. The script reads the four fields of
    the first transaction of the first batch, and then builds the payload
    from [plugins.safeSnap.txString] alone: two votes that differ only in
    that transaction give the same completion; without the field the
    script throws; and the bytes returned are the hex digits of the field,
    here four bytes that hold no commitment. *)
Theorem payload_ignores_transaction (t1 t2 : Transaction) (field : Value) :
  resolve (Answer (Some (Votes.vote "final" (11 # 1) (str "For") t1 field)))
  = resolve (Answer (Some (Votes.vote "final" (11 # 1) (str "For") t2 field)))
  /\ resolve (Answer (Some (Votes.vote "final" (11 # 1) (str "For") t1 undefined)))
     = Throw TypeError
  /\ resolve (Answer (Some (Votes.vote "final" (11 # 1) (str "For") t1 (str "0xdeadbeef"))))
     = ReturnBuffer [xde; xad; xbe; xef]
  /\ Codec.bytesToBytes32Array [xde; xad; xbe; xef] = Ok [].
Proof. repeat split. Qed.

(** The example of the design: with scores [1, 5, 5] the winner is "B". *)
Example winningChoice_tie : winningChoice Votes.tie = str "B".
Proof. reflexivity. Qed.

(** *** The theorems at concrete inputs *)

Lemma resolver_validation_order_witness :
  resolve (Answer (Some (Votes.vote "pending" (11 # 1) (str "For") Votes.transfer undefined)))
  = Throw (JsError "Snapshot vote is not final")
  /\ resolve (Answer (Some (Votes.vote "final" (3 # 1) (str "For") Votes.transfer undefined)))
     = Throw (JsError "Snapshot vote quorum not reached").
Proof.
  split.
  - apply (resolver_validation_order
             (Votes.vote "pending" (11 # 1) (str "For") Votes.transfer undefined));
      [left; discriminate | discriminate].
  - apply (resolver_validation_order
             (Votes.vote "final" (3 # 1) (str "For") Votes.transfer undefined));
      [right; reflexivity | reflexivity].
Defined.

(** C7 as stated fails. "p" holds the commitment delivered for request 1 and
    awaits the result of request 2; the vote is not final, the script throws,
    and the error result delivered for request 2 rewrites the registry: the
    commitment of "p" is gone. *)
Lemma failed_resolution_rewrites_registry :
  let outcome :=
    resolve (Answer (Some (Votes.vote "pending" (11 # 1) (str "For") Votes.transfer undefined)))
  in
  let after :=
    Consumer.commit (Consumer.fulfillRequest Examples.request2 (response_of outcome) [x01])
      Examples.rerequested in
  outcome = Throw (JsError "Snapshot vote is not final")
  /\ Consumer.requestOf Examples.rerequested Examples.request2 = "p"%string
  /\ Consumer.commitmentsOf Examples.rerequested "p" = [Examples.sample_commitment]
  /\ Consumer.commitmentsOf after "p" = []
  /\ after <> Examples.rerequested.
Proof.
  intros outcome after. repeat split; try reflexivity.
  intros C. apply (f_equal (fun s => Consumer.commitmentsOf s "p")) in C.
  vm_compute in C. discriminate.
Qed.


End ResolverFacts.

(** * Further properties of the code *)

(** ** The codec: round trip and concatenation *)

Module CodecMore.
Import Codec CodecFacts.

Lemma chunks_app (n1 n2 : nat) (d1 d2 : list byte) :
  length d1 = (32 * n1)%nat ->
  chunks (n1 + n2) (d1 ++ d2) = chunks n1 d1 ++ chunks n2 d2.
Proof.
  revert d1; induction n1 as [|n1 IH]; intros d1 Hlen.
  - destruct d1; [done | simpl in Hlen; lia].
  - cbn [Nat.add chunks app]. rewrite take_app_le by lia. f_equal.
    rewrite drop_app_le by lia. apply IH. rewrite length_drop. lia.
Qed.

Lemma chunks_short (d : list byte) : (length d < 32)%nat -> decode d = [].
Proof.
  intros H. unfold decode. by rewrite Nat.div_small.
Qed.

Lemma concat_length32 (cs : list (list byte)) :
  Forall (fun c => length c = 32%nat) cs -> length (concat cs) = (32 * length cs)%nat.
Proof.
  induction 1 as [|c cs Hc _ IH]; [done|].
  cbn [concat length]. rewrite length_app, IH, Hc. lia.
Qed.

Lemma chunks_concat_id (cs : list (list byte)) :
  Forall (fun c => length c = 32%nat) cs -> chunks (length cs) (concat cs) = cs.
Proof.
  induction 1 as [|c cs Hc _ IH]; [done|].
  cbn [concat length chunks].
  rewrite take_app_length' by done. rewrite drop_app_length' by done. by rewrite IH.
Qed.

Lemma decode_app (d1 d2 : list byte) (n1 : nat) :
  length d1 = (32 * n1)%nat -> decode (d1 ++ d2) = decode d1 ++ decode d2.
Proof.
  intros Hlen. unfold decode. rewrite length_app, Hlen.
  replace ((32 * n1 + length d2) / 32)%nat with (n1 + length d2 / 32)%nat.
  2: { rewrite (Nat.mul_comm 32 n1), Nat.div_add_l by lia. done. }
  replace (32 * n1 / 32)%nat with n1.
  2: { rewrite (Nat.mul_comm 32 n1), Nat.div_mul by lia. done. }
  by apply chunks_app.
Qed.

(** Round trip. The concatenation of 32-byte words, followed by fewer than
    32 bytes of anything, decodes to those words. *)
Theorem decode_concat_roundtrip (cs : list (list byte)) (tail : list byte) :
  Forall (fun c => length c = 32%nat) cs ->
  (length tail < 32)%nat ->
  Z.of_nat (length (concat cs ++ tail)) + 32 <= uint256_max ->
  bytesToBytes32Array (concat cs ++ tail) = Ok cs.
Proof.
  intros Hcs Htail Hmax. rewrite bytesToBytes32Array_decode by done.
  rewrite (decode_app _ _ (length cs)) by by apply concat_length32.
  rewrite (chunks_short tail) by done. rewrite app_nil_r.
  unfold decode. rewrite concat_length32 by done.
  rewrite (Nat.mul_comm 32), Nat.div_mul by lia. f_equal. by apply chunks_concat_id.
Qed.

Lemma decode_concat_roundtrip_witness :
  bytesToBytes32Array (concat [replicate 32 x01; replicate 32 x02] ++ [x03; x04])
  = Ok [replicate 32 x01; replicate 32 x02].
Proof.
  apply decode_concat_roundtrip.
  - repeat constructor.
  - cbn; lia.
  - vm_compute; discriminate.
Defined.

(** Concatenation. After a payload whose length is a multiple of 32, a second
    payload decodes as it does on its own: the commitments of the whole are
    those of the first followed by those of the second. *)
Theorem decode_append (d1 d2 : list byte) :
  (length d1 mod 32 = 0)%nat ->
  Z.of_nat (length (d1 ++ d2)) + 32 <= uint256_max ->
  exists l1 l2,
    bytesToBytes32Array d1 = Ok l1
    /\ bytesToBytes32Array d2 = Ok l2
    /\ bytesToBytes32Array (d1 ++ d2) = Ok (l1 ++ l2).
Proof.
  intros Hmod Hmax. rewrite length_app in Hmax.
  exists (decode d1), (decode d2).
  split; [apply bytesToBytes32Array_decode; lia|].
  split; [apply bytesToBytes32Array_decode; lia|].
  rewrite bytesToBytes32Array_decode by (rewrite length_app; lia).
  f_equal. apply (decode_app d1 d2 (length d1 / 32)).
  pose proof (Nat.div_mod_eq (length d1) 32). lia.
Qed.

Lemma decode_append_witness :
  bytesToBytes32Array (replicate 32 x01 ++ replicate 40 x02)
  = Ok ([replicate 32 x01] ++ [replicate 32 x02]).
Proof.
  destruct (decode_append (replicate 32 x01) (replicate 40 x02)) as (l1 & l2 & E1 & E2 & E);
    [reflexivity | vm_compute; discriminate |].
  rewrite E. injection E1 as <-. injection E2 as <-. reflexivity.
Defined.

End CodecMore.

(** ** [bytes32ToString] *)

Module TextFacts.
Import Consumer Text.

Lemma upto_zero_nonzero (b : list byte) : x00 ∉ upto_zero b.
Proof.
  induction b as [|x b IH]; cbn [upto_zero]; [apply not_elem_of_nil|].
  case_bool_decide as Hx; [|apply not_elem_of_nil].
  apply not_elem_of_cons. split; [congruence | done].
Qed.

Lemma upto_zero_split (b : list byte) :
  exists rest, b = upto_zero b ++ rest /\ (rest = [] \/ exists rest', rest = x00 :: rest').
Proof.
  induction b as [|x b (rest & E & Hrest)]; cbn [upto_zero].
  - exists []. split; [done | by left].
  - case_bool_decide as Hx.
    + exists rest. split; [cbn; by rewrite <- E | done].
    + exists (x :: b). split; [done|]. right. exists b. f_equal.
      by destruct (decide (x = x00)).
Qed.

Lemma upto_zero_id (b : list byte) : x00 ∉ b -> upto_zero b = b.
Proof.
  induction b as [|x b IH]; [done|]. intros Hn.
  apply not_elem_of_cons in Hn as [Hx Hb]. cbn [upto_zero].
  rewrite bool_decide_eq_true_2 by congruence. by rewrite IH.
Qed.

Lemma upto_zero_padded (b : list byte) (n : nat) :
  x00 ∉ b -> upto_zero (b ++ replicate n x00) = b.
Proof.
  induction b as [|x b IH]; intros Hn.
  - destruct n; [done|]. cbn. by rewrite bool_decide_eq_false_2 by (intros C; by apply C).
  - apply not_elem_of_cons in Hn as [Hx Hb]. cbn [app upto_zero].
    rewrite bool_decide_eq_true_2 by congruence. by rewrite IH.
Qed.

Lemma upto_zero_length (b : list byte) : (length (upto_zero b) <= length b)%nat.
Proof.
  induction b as [|x b IH]; cbn [upto_zero]; [done|].
  case_bool_decide; cbn; lia.
Qed.

Lemma index_at_nat {A} (a : list A) (k : nat) x :
  a !! k = Some x -> index_at a (Z.of_nat k) = Ok x.
Proof.
  intros E. unfold index_at.
  replace (0 <=? Z.of_nat k) with true by (symmetry; apply Z.leb_le; lia).
  by rewrite Nat2Z.id, E.
Qed.

Lemma drop_lookup_cons {A} (a : list A) (k : nat) x :
  a !! k = Some x -> drop k a = x :: drop (S k) a.
Proof. intros E. by rewrite (drop_S a x k E). Qed.

(** The first loop stops at the first zero byte, or at 32. *)
Lemma scan_run (b : list byte) :
  length b = 32%nat ->
  forall (fuel k : nat), (k <= 32)%nat -> (32 - k < fuel)%nat ->
    scan fuel b (Z.of_nat k) = Ok (Z.of_nat (k + length (upto_zero (drop k b)))).
Proof.
  intros Hb fuel. induction fuel as [|fuel IH]; intros k Hk Hfuel; [lia|].
  cbn [scan]. destruct (Z.ltb_spec (Z.of_nat k) 32) as [Hlt|Hge].
  - destruct (lookup_lt_is_Some_2 b k) as [x Hx]; [lia|].
    rewrite (index_at_nat b k x Hx), (drop_lookup_cons b k x Hx). cbn [upto_zero].
    case_bool_decide as Hz.
    + unfold checked_incr8.
      replace (Z.of_nat k + 1 <=? 255) with true by (symmetry; apply Z.leb_le; lia).
      replace (Z.of_nat k + 1) with (Z.of_nat (S k)) by lia.
      rewrite IH by lia. cbn [length]. do 2 f_equal. lia.
    + cbn [length]. do 2 f_equal. lia.
  - assert (k = 32%nat) as -> by lia.
    rewrite drop_ge by lia. cbn. done.
Qed.

(** The second loop writes the same bytes into the array. *)
Lemma copy_run (b : list byte) :
  length b = 32%nat ->
  forall (fuel k : nat) (arr : list byte),
    (k <= 32)%nat -> (32 - k < fuel)%nat ->
    length arr = (k + length (upto_zero (drop k b)))%nat ->
    copy fuel b (Z.of_nat k) arr = Ok (take k arr ++ upto_zero (drop k b)).
Proof.
  intros Hb fuel. induction fuel as [|fuel IH]; intros k arr Hk Hfuel Harr; [lia|].
  cbn [copy]. destruct (Z.ltb_spec (Z.of_nat k) 32) as [Hlt|Hge].
  - destruct (lookup_lt_is_Some_2 b k) as [x Hx]; [lia|].
    rewrite (index_at_nat b k x Hx). rewrite (drop_lookup_cons b k x Hx) in Harr |- *.
    cbn [upto_zero] in Harr |- *.
    case_bool_decide as Hz.
    + cbn [length] in Harr. unfold assign_at.
      replace (0 <=? Z.of_nat k) with true by (symmetry; apply Z.leb_le; lia).
      replace (Z.of_nat k <? Z.of_nat (length arr)) with true
        by (symmetry; apply Z.ltb_lt; lia).
      cbn [andb]. unfold checked_incr8.
      replace (Z.of_nat k + 1 <=? 255) with true by (symmetry; apply Z.leb_le; lia).
      replace (Z.of_nat k + 1) with (Z.of_nat (S k)) by lia.
      rewrite IH; [| lia | lia | rewrite length_insert; lia].
      f_equal. rewrite Nat2Z.id.
      rewrite (take_S_r _ k x) by (apply list_lookup_insert_eq; lia).
      rewrite take_insert_ge by lia. by rewrite <- app_assoc.
    + cbn [length] in Harr. rewrite app_nil_r. f_equal.
      rewrite take_ge by lia. done.
  - assert (k = 32%nat) as -> by lia.
    rewrite drop_ge in Harr |- * by lia. cbn [upto_zero length] in Harr |- *.
    rewrite app_nil_r. f_equal. rewrite take_ge by lia. done.
Qed.

Lemma bytes32ToString_fuel_run (fuel : nat) (b : list byte) :
  length b = 32%nat -> (32 < fuel)%nat ->
  bytes32ToString_fuel fuel b = Ok (upto_zero b).
Proof.
  intros Hb Hfuel. unfold bytes32ToString_fuel.
  pose proof (scan_run b Hb fuel 0 ltac:(lia) ltac:(lia)) as S.
  rewrite drop_0 in S. change (Z.of_nat 0) with 0 in S. cbn [Nat.add] in S.
  rewrite S, Nat2Z.id.
  pose proof (copy_run b Hb fuel 0 (replicate (length (upto_zero b)) x00)
                ltac:(lia) ltac:(lia)) as C.
  rewrite drop_0 in C. change (Z.of_nat 0) with 0 in C. cbn [Nat.add take app] in C.
  apply C. apply length_replicate.
Qed.

(** [bytes32ToString] returns the bytes of the word before its first zero
    byte, on any budget above 32 tests: the result holds no zero byte, the
    word is the result followed by nothing or by a zero byte and more, and
    a word without a zero byte is returned whole. *)
Theorem bytes32ToString_prefix (b : list byte) :
  length b = 32%nat ->
  exists text rest,
    bytes32ToString b = Ok text
    /\ (forall fuel, (32 < fuel)%nat -> bytes32ToString_fuel fuel b = Ok text)
    /\ b = text ++ rest
    /\ (x00 ∉ text)
    /\ (rest = [] \/ exists rest', rest = x00 :: rest')
    /\ (x00 ∉ b -> text = b).
Proof.
  intros Hb. destruct (upto_zero_split b) as (rest & E & Hrest).
  exists (upto_zero b), rest.
  split; [apply bytes32ToString_fuel_run; [done | lia]|].
  split; [intros fuel Hfuel; by apply bytes32ToString_fuel_run|].
  split; [done|]. split; [apply upto_zero_nonzero|]. split; [done|].
  apply upto_zero_id.
Qed.

Lemma bytes32ToString_prefix_witness :
  bytes32ToString ([x66; x6f; x6f] ++ replicate 29 x00) = Ok [x66; x6f; x6f].
Proof.
  destruct (bytes32ToString_prefix ([x66; x6f; x6f] ++ replicate 29 x00))
    as (text & rest & E & _); [reflexivity|].
  rewrite E. vm_compute in E. exact (eq_sym E).
Defined.

(** Round trip with right padding. A text of at most 32 bytes without a zero
    byte, padded with zero bytes to a word, is what [bytes32ToString] gives
    back from the word. *)
Theorem bytes32ToString_padded (text : list byte) :
  (length text <= 32)%nat ->
  x00 ∉ text ->
  bytes32ToString (text ++ replicate (32 - length text) x00) = Ok text.
Proof.
  intros Hlen Hz. unfold bytes32ToString.
  rewrite bytes32ToString_fuel_run; [| rewrite length_app, length_replicate; lia | lia].
  f_equal. by apply upto_zero_padded.
Qed.

Lemma bytes32ToString_padded_witness :
  bytes32ToString ([x70] ++ replicate (32 - length [x70]) x00) = Ok [x70].
Proof.
  apply bytes32ToString_padded.
  - cbn; lia.
  - intros Hin. apply elem_of_cons in Hin as [Hin | Hin];
      [discriminate | by apply elem_of_nil in Hin].
Defined.

End TextFacts.

(** ** The registry and the gate, beyond the claims *)

Module GateMore.
Import Consumer World GateFacts.

Section More.
Context `{Primitives}.

Lemma requestOf_set_request rid p s r :
  requestOf (set_request rid p s) r = if decide (rid = r) then p else requestOf s r.
Proof.
  unfold requestOf, set_request; cbn [functionRequestsForProposals].
  rewrite lookup_insert. by destruct (decide (rid = r)).
Qed.

Lemma executeRequest_commit p rest rid s :
  isExecuted s p = false ->
  commit (executeRequest true (p :: rest) (Ok rid)) s = set_request rid p s.
Proof.
  intros E. unfold commit. rewrite executeRequest_run.
  change (index_at (p :: rest) 0) with (Ok p). cbv beta iota. by rewrite E.
Qed.

Lemma decode_word (h : list byte) :
  length h = 32%nat -> Codec.bytesToBytes32Array h = Ok [h].
Proof.
  intros Hh. rewrite CodecFacts.bytesToBytes32Array_decode.
  - unfold Codec.decode. rewrite Hh. cbn. f_equal. f_equal. apply take_ge. lia.
  - rewrite Hh. vm_compute. discriminate.
Qed.

(** [executeRequest] refuses, in this order, a caller who is not the owner,
    an empty argument list (the read of [args[0]] panics) and a proposal
    that is executed; the storage is then left as it was, and nothing is
    sent. Otherwise it binds the request id it is given to [args[0]] and
    leaves the other bindings, the commitments and the executed flags as
    they were. *)
Theorem executeRequest_guards (isOwner : bool) (args : list string)
    (sendRequest : result (list byte)) (s : Storage) :
  let call := executeRequest isOwner args sendRequest in
  (isOwner = false ->
     call s = reverted (Error "Only callable by owner") /\ commit call s = s)
  /\ (isOwner = true -> args = [] ->
     call s = reverted (Panic 0x32) /\ commit call s = s)
  /\ (forall p rest, isOwner = true -> args = p :: rest -> isExecuted s p = true ->
     call s = reverted (Error "Proposal already executed") /\ commit call s = s)
  /\ (forall p rest requestId,
     isOwner = true -> args = p :: rest -> isExecuted s p = false ->
     sendRequest = Ok requestId ->
     res (call s) = Ok (requestId, commit call s)
     /\ requestOf (commit call s) requestId = p
     /\ (forall r, r <> requestId -> requestOf (commit call s) r = requestOf s r)
     /\ proposals (commit call s) = proposals s
     /\ executed (commit call s) = executed s).
Proof.
  intros call. subst call. unfold commit. rewrite executeRequest_run.
  split; [by intros ->|]. split; [by intros -> ->|]. split.
  - intros p rest -> -> E. change (index_at (p :: rest) 0) with (Ok p).
    cbv beta iota. by rewrite E.
  - intros p rest requestId -> -> E ->.
    change (index_at (p :: rest) 0) with (Ok p). cbv beta iota. rewrite E. cbn [res].
    split; [done|]. split; [|split; [|done]].
    + rewrite requestOf_set_request. by rewrite decide_True.
    + intros r Hr. rewrite requestOf_set_request. by rewrite decide_False.
Qed.

(** Request, then callback. Once [executeRequest] has bound a request id to
    a proposal that is not executed, the callback for that id stores the
    32-byte chunks of the response as the proposal's commitments, whatever
    [err] holds, and leaves the other proposals as they were. *)
Theorem request_then_fulfill (p : string) (rest : list string)
    (requestId response err : list byte) (s : Storage) :
  isExecuted s p = false ->
  Z.of_nat (length response) + 32 <= uint256_max ->
  let s1 := commit (executeRequest true (p :: rest) (Ok requestId)) s in
  let s2 := commit (fulfillRequest requestId response err) s1 in
  commitmentsOf s2 p = Codec.decode response
  /\ length (commitmentsOf s2 p) = (length response / 32)%nat
  /\ (forall q, q <> p -> commitmentsOf s2 q = commitmentsOf s q)
  /\ executed s2 = executed s
  /\ events s2 = events s ++ [OCRResponse requestId response err].
Proof.
  intros E Hmax s1 s2. subst s1 s2. rewrite executeRequest_commit by done.
  assert (requestOf (set_request requestId p s) requestId = p) as R.
  { rewrite requestOf_set_request. by rewrite decide_True. }
  rewrite fulfillRequest_commit by (rewrite R; exact E).
  rewrite R, CodecFacts.bytesToBytes32Array_decode by done.
  change (commitmentsOf (emit ?e ?t)) with (commitmentsOf t).
  split; [|split; [|split; [|done]]].
  - rewrite commitmentsOf_set_proposal. by rewrite decide_True.
  - rewrite commitmentsOf_set_proposal, decide_True by done. apply CodecFacts.chunks_length.
  - intros q Hq. rewrite commitmentsOf_set_proposal. by rewrite decide_False.
Qed.

(** A callback for a request id that was never bound writes under the empty
    proposal id: the correlation mapping reads as the empty string there. *)
Theorem fulfill_unknown_request (requestId response err : list byte) (s : Storage) :
  functionRequestsForProposals s !! requestId = None ->
  isExecuted s "" = false ->
  Z.of_nat (length response) + 32 <= uint256_max ->
  let s' := commit (fulfillRequest requestId response err) s in
  commitmentsOf s' "" = Codec.decode response
  /\ (forall q, q <> ""%string -> commitmentsOf s' q = commitmentsOf s q).
Proof.
  intros Hr E Hmax s'. subst s'.
  assert (requestOf s requestId = ""%string) as R by (unfold requestOf; by rewrite Hr).
  rewrite fulfillRequest_commit by (rewrite R; exact E).
  rewrite R, CodecFacts.bytesToBytes32Array_decode by done.
  change (commitmentsOf (emit ?e ?t)) with (commitmentsOf t).
  split.
  - rewrite commitmentsOf_set_proposal. by rewrite decide_True.
  - intros q Hq. rewrite commitmentsOf_set_proposal. by rewrite decide_False.
Qed.

(** Executed is final, short of a direct store. Whatever transaction comes
    next, against a quiet callee (no target stores to the contract's
    mappings itself, as delegate-called code could), a proposal that is
    executed stays executed and keeps its commitments. *)
Theorem executed_is_final (s : Storage) (m : Msg) (c : Callee) (p : string) :
  quiet c ->
  isExecuted s p = true ->
  let s' := commit (handle (run c) m) s in
  isExecuted s' p = true /\ commitmentsOf s' p = commitmentsOf s p.
Proof.
  intros Hc E s'.
  destruct (handle_evolves (run c) m s (run_evolves c Hc)) as (F & C & _).
  split; [by apply F | by apply C].
Qed.

(** One commitment per proposal. Once a call for a proposal has succeeded
    against a quiet callee (no target stores to the contract's mappings
    itself), every call for it fails with "Proposal already executed" before
    any dispatch, at every index and for every transaction: of the
    commitments of a proposal at most one is then executed. *)
Theorem one_commitment_per_proposal (c : Callee) (s s' : Storage) (p : string)
    (to value : Z) (data : list byte) (operation txIndex : Z) :
  quiet c ->
  res (executeProposalWithIndex (run c) p to value data operation txIndex s) = Ok (tt, s') ->
  forall (ext : External) to' value' data' operation' txIndex',
    executeProposalWithIndex ext p to' value' data' operation' txIndex' s'
    = reverted (Error "Proposal already executed").
Proof.
  intros Hc R ext to' value' data' operation' txIndex'.
  assert (isExecuted s' p = true) as E'.
  { rewrite executeProposalWithIndex_run in R.
    destruct (isExecuted s p) eqn:E; [done|].
    destruct (index_at (commitmentsOf s p) txIndex); [|done].
    case_bool_decide; [|done]. cbn zeta in R.
    destruct (success _) eqn:S; [|done]. cbn [res] in R. injection R as <-.
    change (isExecuted (record_verified ?v ?t) p) with (isExecuted t p).
    destruct (run_evolves c Hc (dispatched to value data operation) (set_executed p true s))
      as (F & _).
    apply F. rewrite isExecuted_set_executed. by rewrite decide_True. }
  by rewrite executeProposalWithIndex_run, E'.
Qed.

(** A failed dispatch. When the target's call fails, the call fails with
    "Module transaction failed" after the one dispatch, the storage is what
    it was, executed flag included, and the same call succeeds later against
    a target that succeeds. *)
Theorem failed_dispatch_rolls_back (ext : External) (s : Storage) (p : string)
    (to value : Z) (data : list byte) (operation txIndex : Z) (commitment : list byte) :
  isExecuted s p = false ->
  index_at (commitmentsOf s p) txIndex = Ok commitment ->
  keccak256 (abi_encode to value data operation) = commitment ->
  let call := dispatched to value data operation in
  success (ext call (set_executed p true s)) = false ->
  let attempt := executeProposalWithIndex ext p to value data operation txIndex in
  res (attempt s) = Fail (Error "Module transaction failed")
  /\ calls (attempt s) = call :: nested (ext call (set_executed p true s))
  /\ commit attempt s = s
  /\ (forall c : Callee,
        success (run c call (set_executed p true s)) = true ->
        exists s', res (executeProposalWithIndex (run c) p to value data operation txIndex
                          (commit attempt s)) = Ok (tt, s')).
Proof.
  intros E I Hhash call Hfail attempt. subst call attempt.
  assert (commit (executeProposalWithIndex ext p to value data operation txIndex) s = s) as Cs.
  { unfold commit. rewrite executeProposalWithIndex_run, E, I.
    rewrite bool_decide_eq_true_2 by done. cbn zeta. by rewrite Hfail. }
  rewrite Cs.
  rewrite executeProposalWithIndex_run, E, I, bool_decide_eq_true_2 by done.
  cbn zeta. rewrite Hfail. cbn [res calls]. repeat split.
  intros c Hok. rewrite executeProposalWithIndex_run, E, I, bool_decide_eq_true_2 by done.
  cbn zeta. rewrite Hok. eauto.
Qed.

(** The life of a proposal. A request for a proposal that is not executed,
    the callback with the 32-byte hash of a transaction, and the execution of
    that transaction against a quiet target (one that does not store to the
    contract's mappings itself) that succeeds: the execution succeeds,
    [hasCompletelyExecuted] turns from false to true, and from then on a new
    request for the proposal and a callback for any request bound to it are
    refused with "Proposal already executed". *)
Theorem proposal_life_cycle (c : Callee) (s : Storage) (p : string) (requestId : list byte)
    (to value : Z) (data : list byte) (operation : Z) :
  quiet c ->
  isExecuted s p = false ->
  length (keccak256 (abi_encode to value data operation)) = 32%nat ->
  let commitment := keccak256 (abi_encode to value data operation) in
  let s1 := commit (executeRequest true [p] (Ok requestId)) s in
  let s2 := commit (fulfillRequest requestId commitment []) s1 in
  success (run c (dispatched to value data operation) (set_executed p true s2)) = true ->
  exists s3,
    res (executeProposal (run c) p to value data operation s2) = Ok (tt, s3)
    /\ res (hasCompletelyExecuted p s2) = Ok (false, s2)
    /\ res (hasCompletelyExecuted p s3) = Ok (true, s3)
    /\ (forall rest requestId',
          executeRequest true (p :: rest) (Ok requestId') s3
          = reverted (Error "Proposal already executed"))
    /\ (forall r response err,
          requestOf s3 r = p ->
          fulfillRequest r response err s3 = reverted (Error "Proposal already executed")).
Proof.
  intros Hc E Hlen commitment s1 s2 Hok.
  assert (s2 = emit (OCRResponse requestId commitment [])
                 (set_proposal p [commitment] (set_request requestId p s))) as S2.
  { subst s2 s1. rewrite executeRequest_commit by done.
    assert (requestOf (set_request requestId p s) requestId = p) as R.
    { rewrite requestOf_set_request. by rewrite decide_True. }
    rewrite fulfillRequest_commit by (rewrite R; exact E).
    rewrite R. by rewrite decode_word. }
  clearbody s2. subst s2. clear s1.
  set (s2 := emit _ _) in *.
  assert (isExecuted s2 p = false) as E2 by exact E.
  assert (index_at (commitmentsOf s2 p) 0 = Ok commitment) as I2.
  { subst s2. change (commitmentsOf (emit ?e ?t)) with (commitmentsOf t).
    by rewrite commitmentsOf_set_proposal, decide_True. }
  set (s3 := record_verified (receipt p to value data operation 0)
               (storage_after (run c (dispatched to value data operation)
                                 (set_executed p true s2)))).
  assert (isExecuted s3 p = true) as E3.
  { destruct (run_evolves c Hc (dispatched to value data operation) (set_executed p true s2))
      as (F & _).
    apply (F p). rewrite isExecuted_set_executed. by rewrite decide_True. }
  exists s3. split; [|split; [|split; [|split]]].
  - unfold executeProposal.
    rewrite executeProposalWithIndex_run, E2, I2, bool_decide_eq_true_2 by done.
    cbn zeta. by rewrite Hok.
  - unfold hasCompletelyExecuted, read. cbn [res]. by rewrite E2.
  - unfold hasCompletelyExecuted, read. cbn [res]. by rewrite E3.
  - intros rest requestId'. rewrite executeRequest_run.
    change (index_at (p :: rest) 0) with (Ok p). cbv beta iota. by rewrite E3.
  - intros r response err Hr. rewrite fulfillRequest_run, Hr, E3. done.
Qed.

Lemma handle_events (ext : External) (m : Msg) (s : Storage) :
  (forall c t, events t `prefix_of` events (storage_after (ext c t))) ->
  events s `prefix_of` events (commit (handle ext m) s).
Proof.
  intros Hext.
  assert (forall p to value data operation txIndex,
            events s `prefix_of`
              events (commit (executeProposalWithIndex ext p to value data operation txIndex) s))
    as Hexec.
  { intros p to value data operation txIndex. unfold commit.
    rewrite executeProposalWithIndex_run.
    destruct (isExecuted s p); [done|].
    destruct (index_at (commitmentsOf s p) txIndex); [|done].
    case_bool_decide; [|done]. cbn zeta.
    destruct (success _); [|done]. cbn [res].
    apply (Hext (dispatched to value data operation) (set_executed p true s)). }
  destruct m as [isOwner args sendRequest | requestId response err | | ].
  - unfold commit, handle, bind. rewrite executeRequest_run.
    destruct isOwner; [|done]. destruct (index_at args 0); [|done].
    destruct (isExecuted s a); [done|]. by destruct sendRequest.
  - unfold commit, handle. rewrite fulfillRequest_run.
    destruct (isExecuted s (requestOf s requestId)); [done|].
    destruct (Codec.bytesToBytes32Array response); [|done].
    cbn [res emit set_proposal events]. by apply prefix_app_r.
  - apply Hexec.
  - apply Hexec.
Qed.

Lemma run_events (c : Callee) :
  forall call s, events s `prefix_of` events (storage_after (run c call s)).
Proof.
  induction c as [ok ret | k IH | w k IH | m inner IHinner k IHk]; intros call s.
  - done.
  - apply IH.
  - cbn [run]. etrans; [|apply IH]. by destruct (decide _), w.
  - cbn [run storage_after]. etrans; [apply (handle_events (run inner) m s IHinner) | apply IHk].
Qed.

(** The log of [OCRResponse] events only grows: after any transaction,
    whatever the callee does, stores included, the log is the log before
    followed by the events of the transaction; and a transaction that
    reverts adds none. *)
Theorem event_log_append_only (s : Storage) (m : Msg) (c : Callee) :
  (exists emitted, events (commit (handle (run c) m) s) = events s ++ emitted)
  /\ (forall r, res (handle (run c) m s) = Fail r ->
        events (commit (handle (run c) m) s) = events s).
Proof.
  split; [apply (handle_events (run c) m s (run_events c))|].
  intros r R. unfold commit. by rewrite R.
Qed.

(** The operation number. Zero is a CALL that carries [value]; every other
    number is a DELEGATECALL, which carries no value; while the commitment
    binds the number itself. *)
Theorem operation_selects_call (ext : External) (s : Storage) (p : string)
    (to value : Z) (data : list byte) (operation txIndex : Z) (commitment : list byte) :
  isExecuted s p = false ->
  index_at (commitmentsOf s p) txIndex = Ok commitment ->
  keccak256 (abi_encode to value data operation) = commitment ->
  exists issued more,
    calls (executeProposalWithIndex ext p to value data operation txIndex s) = issued :: more
    /\ call_to issued = to /\ call_data issued = data
    /\ (operation = 0 -> call_operation issued = CALL /\ call_value issued = value)
    /\ (operation <> 0 -> call_operation issued = DELEGATECALL /\ call_value issued = 0).
Proof.
  intros E I Hhash.
  exists (dispatched to value data operation),
         (nested (ext (dispatched to value data operation) (set_executed p true s))).
  split.
  - rewrite executeProposalWithIndex_run, E, I, bool_decide_eq_true_2 by done.
    cbn zeta. by destruct (success _).
  - unfold dispatched. destruct (Z.eqb_spec operation 0); cbn; repeat split; done.
Qed.

Lemma run_reenter (m : Msg) (inner : Callee) (k : bool -> Callee) call s :
  run (Reenter m inner k) call s
  = let o := handle (run inner) m s in
    let r := run (k (is_ok (res o))) call (commit (handle (run inner) m) s) in
    {| success := success r; returnData := returnData r;
       storage_after := storage_after r; nested := calls o ++ nested r |}.
Proof. done. Qed.

(** Re-entrancy is refused per proposal, not per contract: a target that
    calls back to execute another proposal succeeds in it, and both
    proposals end executed, with the two dispatches in the order made. *)
Theorem reentrant_other_proposal (s : Storage) (p q : string)
    (to value : Z) (data : list byte) (operation txIndex : Z)
    (to' value' : Z) (data' : list byte) (operation' txIndex' : Z) :
  p <> q ->
  isExecuted s p = false ->
  isExecuted s q = false ->
  index_at (commitmentsOf s p) txIndex = Ok (keccak256 (abi_encode to value data operation)) ->
  index_at (commitmentsOf s q) txIndex'
  = Ok (keccak256 (abi_encode to' value' data' operation')) ->
  let callback := ExecuteProposalWithIndex q to' value' data' operation' txIndex' in
  let c := Reenter callback (Halt true []) (fun ok => Halt ok []) in
  exists s',
    res (executeProposalWithIndex (run c) p to value data operation txIndex s) = Ok (tt, s')
    /\ calls (executeProposalWithIndex (run c) p to value data operation txIndex s)
       = [dispatched to value data operation; dispatched to' value' data' operation']
    /\ isExecuted s' p = true
    /\ isExecuted s' q = true.
Proof.
  intros Hpq Ep Eq Ip Iq callback c.
  set (t := set_executed p true s).
  assert (isExecuted t q = false) as Etq.
  { subst t. rewrite isExecuted_set_executed. by rewrite decide_False. }
  assert (executeProposalWithIndex (run (Halt true [])) q to' value' data' operation' txIndex' t
          = {| res := Ok (tt, record_verified (receipt q to' value' data' operation' txIndex')
                                (set_executed q true t));
               calls := [dispatched to' value' data' operation'] |}) as Inner.
  { rewrite executeProposalWithIndex_run, Etq.
    change (commitmentsOf t q) with (commitmentsOf s q).
    rewrite Iq, bool_decide_eq_true_2 by done. done. }
  assert (run c (dispatched to value data operation) t
          = {| success := true; returnData := [];
               storage_after := record_verified (receipt q to' value' data' operation' txIndex')
                                  (set_executed q true t);
               nested := [dispatched to' value' data' operation'] |}) as R.
  { subst c callback. rewrite run_reenter. cbn [handle]. unfold commit.
    rewrite Inner. cbn. done. }
  exists (record_verified (receipt p to value data operation txIndex)
            (record_verified (receipt q to' value' data' operation' txIndex')
               (set_executed q true t))).
  rewrite executeProposalWithIndex_run, Ep, Ip, bool_decide_eq_true_2 by done.
  cbn zeta. fold t. rewrite R. cbn [success storage_after nested res calls].
  split; [done|]. split; [done|].
  change (isExecuted (record_verified ?v (record_verified ?w ?u))) with (isExecuted u).
  rewrite !isExecuted_set_executed. split.
  - subst t. rewrite decide_False by done. rewrite isExecuted_set_executed.
    by rewrite decide_True.
  - by rewrite decide_True.
Qed.

End More.

(** *** The theorems at concrete inputs *)

Import Examples MoreExamples.
#[local] Existing Instance sample_primitives.

Lemma executeRequest_guards_witness :
  executeRequest false ["p"%string] (Ok request1) empty_storage
  = reverted (Error "Only callable by owner")
  /\ executeRequest true [] (Ok request1) empty_storage = reverted (Panic 0x32)
  /\ executeRequest true ["p"%string] (Ok request2) finished
     = reverted (Error "Proposal already executed")
  /\ requestOf (commit (executeRequest true ["p"%string] (Ok request1)) empty_storage) request1
     = "p"%string.
Proof.
  split; [|split; [|split]].
  - apply (executeRequest_guards false ["p"%string] (Ok request1) empty_storage). reflexivity.
  - apply (executeRequest_guards true [] (Ok request1) empty_storage); reflexivity.
  - apply (proj1 (proj2 (proj2 (executeRequest_guards true ["p"%string] (Ok request2) finished)))
             "p"%string []); reflexivity.
  - apply (proj2 (proj2 (proj2 (executeRequest_guards true ["p"%string] (Ok request1)
                                  empty_storage))) "p"%string [] request1); reflexivity.
Defined.

Lemma request_then_fulfill_witness :
  commitmentsOf (commit (fulfillRequest request1 (sample_commitment ++ other_commitment) [])
                   (commit (executeRequest true ["p"%string] (Ok request1)) empty_storage)) "p"
  = [sample_commitment; other_commitment].
Proof.
  destruct (request_then_fulfill "p" [] request1 (sample_commitment ++ other_commitment) []
              empty_storage) as (R & _); [reflexivity | vm_compute; discriminate |].
  rewrite R. reflexivity.
Defined.

Lemma fulfill_unknown_request_witness :
  commitmentsOf (commit (fulfillRequest request1 sample_commitment []) empty_storage) ""
  = [sample_commitment].
Proof.
  destruct (fulfill_unknown_request request1 sample_commitment [] empty_storage) as (R & _);
    [reflexivity | reflexivity | vm_compute; discriminate |].
  rewrite R. reflexivity.
Defined.

Lemma executed_is_final_witness :
  isExecuted (commit (handle (run succeeding) (FulfillRequest request1 other_commitment []))
                finished) "p" = true.
Proof.
  apply (executed_is_final finished (FulfillRequest request1 other_commitment [])
           succeeding "p"); [apply quiet_Halt | reflexivity].
Defined.

Lemma one_commitment_per_proposal_witness :
  executeProposalWithIndex (run succeeding) "p" target 5 [x01] 1 3 finished
  = reverted (Error "Proposal already executed").
Proof.
  apply (one_commitment_per_proposal succeeding fulfilled finished "p" target 0 [] 0 0);
    [apply quiet_Halt | reflexivity].
Defined.

Lemma failed_dispatch_rolls_back_witness :
  res (executeProposalWithIndex (failing [x01]) "p" target 0 [] 0 0 committed)
  = Fail (Error "Module transaction failed")
  /\ commit (executeProposalWithIndex (failing [x01]) "p" target 0 [] 0 0) committed = committed.
Proof.
  destruct (failed_dispatch_rolls_back (failing [x01]) committed "p" target 0 [] 0 0
              sample_commitment) as (R & _ & C & _);
    [reflexivity | reflexivity | reflexivity | reflexivity |].
  split; [exact R | exact C].
Defined.

Lemma proposal_life_cycle_witness :
  exists s3,
    res (executeProposal (run succeeding) "p" target 0 [] 0 fulfilled) = Ok (tt, s3)
    /\ res (hasCompletelyExecuted "p" s3) = Ok (true, s3).
Proof.
  destruct (proposal_life_cycle succeeding empty_storage "p" request1 target 0 [] 0)
    as (s3 & R & _ & D & _); [apply quiet_Halt | reflexivity | reflexivity | reflexivity |].
  exists s3. split; [exact R | exact D].
Defined.

Lemma operation_selects_call_witness :
  exists issued more,
    calls (executeProposalWithIndex (run succeeding) "p" target 0 [] 0 0 committed)
    = issued :: more
    /\ call_operation issued = CALL.
Proof.
  destruct (operation_selects_call (run succeeding) committed "p" target 0 [] 0 0
              sample_commitment) as (issued & more & E & _ & _ & Z0 & _);
    [reflexivity | reflexivity | reflexivity |].
  exists issued, more. split; [exact E | by apply Z0].
Defined.

Lemma reentrant_other_proposal_witness :
  exists s',
    res (executeProposalWithIndex (run calls_back) "p" target 0 [] 0 0 two_proposals)
    = Ok (tt, s')
    /\ isExecuted s' "p" = true /\ isExecuted s' "q" = true.
Proof.
  destruct (reentrant_other_proposal two_proposals "p" "q" target 0 [] 0 0 target 0 [] 0 0)
    as (s' & R & _ & Ep & Eq);
    [discriminate | reflexivity | reflexivity | reflexivity | reflexivity |].
  exists s'. split; [exact R | split; [exact Ep | exact Eq]].
Defined.

End GateMore.

(** ** The resolver, beyond the claims *)

Module ResolverMore.
Import Snapshot Hex ResolverFacts.

Lemma hex_digit_bound (c : Ascii.ascii) (h : N) : hex_digit c = Some h -> (h < 16)%N.
Proof.
  unfold hex_digit. set (n := Ascii.N_of_ascii c).
  destruct (48 <=? n)%N eqn:A1, (n <=? 57)%N eqn:A2; cbn [andb];
    try (intros [= <-]; apply N.leb_le in A1, A2; lia).
  all: destruct (97 <=? n)%N eqn:B1, (n <=? 102)%N eqn:B2; cbn [andb];
    try (intros [= <-]; apply N.leb_le in B1, B2; lia).
  all: destruct (65 <=? n)%N eqn:C1, (n <=? 70)%N eqn:C2; cbn [andb];
    try (intros [= <-]; apply N.leb_le in C1, C2; lia); done.
Qed.

Lemma byte_of_small (x : N) : (x <= 255)%N -> exists b, Byte.of_N x = Some b.
Proof.
  intros Hx. pose proof (Byte.to_of_N_option_map x) as E.
  destruct (Byte.of_N x) as [b|]; [by exists b|].
  cbn in E. apply N.leb_le in Hx. by rewrite Hx in E.
Qed.

Lemma Buffer_from_hex_bound (n : nat) :
  forall s, (String.length s <= n)%nat ->
    (2 * length (Buffer_from_hex s) <= String.length s)%nat.
Proof.
  induction n as [n IH] using lt_wf_ind. intros s Hs.
  destruct s as [|a [|b rest]]; cbn [Buffer_from_hex String.length length]; [lia | lia |].
  destruct (hex_digit a), (hex_digit b); cbn [length]; try lia.
  destruct (Byte.of_N _); cbn [length]; [|lia].
  cbn [String.length] in Hs.
  pose proof (IH (String.length rest) ltac:(lia) rest ltac:(lia)). lia.
Qed.

Lemma Buffer_from_hex_all (k : nat) :
  forall s, all_hex s = true -> String.length s = (2 * k)%nat ->
    length (Buffer_from_hex s) = k.
Proof.
  induction k as [|k IH]; intros s Hhex Hlen.
  - destruct s; [done | cbn in Hlen; lia].
  - destruct s as [|a [|b rest]]; cbn [String.length] in Hlen; [lia | lia |].
    cbn [all_hex] in Hhex. apply andb_prop in Hhex as [Ha Hhex].
    apply andb_prop in Hhex as [Hb Hrest].
    apply bool_decide_eq_true in Ha as [h Hh]. apply bool_decide_eq_true in Hb as [l Hl].
    cbn [Buffer_from_hex]. rewrite Hh, Hl.
    pose proof (hex_digit_bound a h Hh). pose proof (hex_digit_bound b l Hl).
    destruct (byte_of_small (16 * h + l)) as [x Hx]; [lia|]. rewrite Hx.
    cbn [length]. f_equal. apply IH; [done | lia].
Qed.

Lemma slice2_cons (a b : Ascii.ascii) (rest : string) :
  slice2 (String a (String b rest)) = rest.
Proof.
  unfold slice2. cbn [String.length]. rewrite Nat.sub_succ, Nat.sub_succ, Nat.sub_0_r.
  cbn [String.substring].
  induction rest as [|x rest IH]; [done|]. cbn [String.length String.substring]. by rewrite IH.
Qed.

(** The script returns a payload only for a final vote that reaches its
    quorum and whose [executableIf] is the winning choice, and then the
    payload is the hex decoding of [txString] without its first two
    characters: in every other case it throws or returns the error value. *)
Theorem payload_only_when_authorized (r : Response) (b : list byte) :
  resolve r = ReturnBuffer b ->
  exists p s,
    r = Answer (Some p)
    /\ scores_state p = "final"%string
    /\ (quorum p <= scores_total p)%Q
    /\ executableIf_of p = winningChoice p
    /\ txString_of p = str s
    /\ b = Buffer_from_hex (slice2 s).
Proof.
  destruct r as [|[p|]]; cbn [resolve]; [done | | done].
  unfold resolve_proposal.
  destruct (String.eqb_spec (scores_state p) "final") as [Hstate|]; cbn [negb]; [|done].
  unfold lt. destruct (Qle_bool (quorum p) (scores_total p)) eqn:Hq; cbn [negb]; [|done].
  unfold shouldExecute, strict_eq. case_bool_decide as Hexec; cbn [negb]; [|done].
  destruct (hash_of p); [done|].
  destruct (field_of to p), (field_of value p), (field_of data p), (field_of operation p);
    try done.
  destruct (txString_of p) as [| |s] eqn:Ht; try done.
  intros [= <-]. exists p, s. apply Qle_bool_iff in Hq. done.
Qed.

Lemma payload_only_when_authorized_witness :
  exists p s,
    Answer (Some (Votes.vote "final" (11 # 1) (str "For") Votes.transfer (str "0xdeadbeef")))
    = Answer (Some p)
    /\ txString_of p = str s.
Proof.
  destruct (payload_only_when_authorized
              (Answer (Some (Votes.vote "final" (11 # 1) (str "For") Votes.transfer
                               (str "0xdeadbeef"))))
              [xde; xad; xbe; xef]) as (p & s & E & _ & _ & _ & T & _); [reflexivity|].
  exists p, s. split; [exact E | exact T].
Defined.

(** From [txString] to commitments. The first two characters of [txString]
    are dropped whatever they are; when the rest is [64 n] hex digits the
    payload is [32 n] bytes and the contract's decoder turns it into [n]
    commitments. In general the payload holds at most one byte per two
    characters. *)
Theorem hex_payload_commitments (a b : Ascii.ascii) (hex : string) (n : nat) :
  all_hex hex = true ->
  String.length hex = (64 * n)%nat ->
  Z.of_nat (32 * n) + 32 <= uint256_max ->
  let payload := Buffer_from_hex (slice2 (String a (String b hex))) in
  payload = Buffer_from_hex hex
  /\ length payload = (32 * n)%nat
  /\ (exists commitments,
       Codec.bytesToBytes32Array payload = Ok commitments /\ length commitments = n)
  /\ (forall s, (2 * length (Buffer_from_hex s) <= String.length s)%nat).
Proof.
  intros Hhex Hlen Hmax payload. subst payload. rewrite slice2_cons.
  assert (length (Buffer_from_hex hex) = (32 * n)%nat) as L.
  { apply Buffer_from_hex_all; [done | lia]. }
  split; [done|]. split; [done|]. split.
  - exists (Codec.decode (Buffer_from_hex hex)). split.
    + apply CodecFacts.bytesToBytes32Array_decode. by rewrite L.
    + unfold Codec.decode. rewrite CodecFacts.chunks_length, L.
      rewrite (Nat.mul_comm 32), Nat.div_mul; lia.
  - intros s. by apply (Buffer_from_hex_bound (String.length s)).
Qed.

Lemma hex_payload_commitments_witness :
  exists commitments,
    Codec.bytesToBytes32Array
      (Buffer_from_hex (slice2
         "0x00112233445566778899aabbccddeeff00112233445566778899AABBCCDDEEFF"))
    = Ok commitments
    /\ length commitments = 1%nat.
Proof.
  destruct (hex_payload_commitments (Ascii.ascii_of_nat 48) (Ascii.ascii_of_nat 120)
              "00112233445566778899aabbccddeeff00112233445566778899AABBCCDDEEFF" 1)
    as (_ & _ & C & _); [reflexivity | reflexivity | vm_compute; discriminate |].
  exact C.
Defined.

(** Without the plugin. For a final vote that reaches its quorum and carries
    no plugin data, [executableIf] is undefined: the script returns the error
    value when there is a winning choice, and when there is none (no scores,
    or fewer choices than scores) it passes the test and throws on
    [txString.slice]. It never returns a payload. *)
Theorem resolve_without_plugin (p : Proposal) :
  plugins p = None ->
  scores_state p = "final"%string ->
  (quorum p <= scores_total p)%Q ->
  (winningChoice p <> undefined ->
     resolve (Answer (Some p)) = ReturnError "Snpashot vote outcome should not execute")
  /\ (winningChoice p = undefined -> resolve (Answer (Some p)) = Throw TypeError)
  /\ (scores p = [] -> resolve (Answer (Some p)) = Throw TypeError)
  /\ payload (resolve (Answer (Some p))) = None.
Proof.
  intros Hpl Hstate Hq.
  assert (resolve (Answer (Some p))
          = if bool_decide (undefined = winningChoice p) then Throw TypeError
            else ReturnError "Snpashot vote outcome should not execute") as R.
  { cbn [resolve]. unfold resolve_proposal. rewrite Hstate. cbn [String.eqb negb].
    unfold lt. apply Qle_bool_iff in Hq. rewrite Hq. cbn [negb].
    unfold shouldExecute, strict_eq, executableIf_of. rewrite Hpl.
    case_bool_decide; cbn [negb]; [|done].
    unfold hash_of, field_of, firstBatch, txString_of. by rewrite Hpl. }
  rewrite R. split; [|split; [|split]].
  - intros Hw. by rewrite bool_decide_eq_false_2.
  - intros Hw. by rewrite bool_decide_eq_true_2.
  - intros Hs. unfold winningChoice. by rewrite Hs.
  - by case_bool_decide.
Qed.

Lemma resolve_without_plugin_witness :
  resolve (Answer (Some Votes.tie)) = ReturnError "Snpashot vote outcome should not execute".
Proof.
  apply (resolve_without_plugin Votes.tie); [reflexivity | reflexivity | discriminate |].
  discriminate.
Defined.

Lemma indexOf_from_found (xs : list Q) (m : Q) (z : Z) :
  (exists x, x ∈ xs /\ (x == m)%Q) ->
  exists (i : nat) x,
    xs !! i = Some x /\ (x == m)%Q
    /\ (forall (j : nat) y, (j < i)%nat -> xs !! j = Some y -> ~ (y == m)%Q)
    /\ indexOf_from xs (Finite m) z = z + Z.of_nat i.
Proof.
  revert z; induction xs as [|y xs IH]; intros z (x & Hx & Hxm).
  - by apply elem_of_nil in Hx.
  - cbn [indexOf_from num_eq]. destruct (Qeq_bool y m) eqn:Q.
    + exists 0%nat, y. split; [done|]. split; [by apply Qeq_bool_iff|].
      split; [intros; lia | lia].
    + apply elem_of_cons in Hx as [-> | Hx].
      { apply Qeq_bool_iff in Hxm. congruence. }
      destruct (IH (z + 1)) as (i & x' & Hi & Hm & Hmin & E); [by exists x|].
      exists (S i), x'. split; [done|]. split; [done|]. split; [|lia].
      intros [|j] y' Hj Hy'.
      * cbn in Hy'. injection Hy' as <-. intros C. apply Qeq_bool_iff in C. congruence.
      * apply (Hmin j y'); [lia | done].
Qed.

(** The winning choice exists. When there is at least one score and a choice
    for every score, some index is the lowest that achieves the maximum, and
    the script's [winningChoice] is the choice at that index; a later score
    equal to the maximum does not displace it. *)
Theorem winning_choice_defined (p : Proposal) :
  scores p <> [] ->
  (length (scores p) <= length (choices p))%nat ->
  exists (i : nat) c,
    lowest_argmax (scores p) i
    /\ choices p !! i = Some c
    /\ winningChoice p = str c.
Proof.
  intros Hne Hlen.
  destruct (Math_max_spec (scores p) Hne) as (m & E & Hin & Hall).
  destruct (indexOf_from_found (scores p) m 0) as (i & x & Hi & Hxm & Hmin & Hidx).
  { exists m. split; [done | apply Qeq_refl]. }
  destruct (lookup_lt_is_Some_2 (choices p) i) as [c Hc].
  { apply lookup_lt_Some in Hi. lia. }
  assert (lowest_argmax (scores p) i) as Hlow.
  { exists x. split; [done|]. split.
    - intros j y Hy. rewrite Hxm. apply Hall. apply list_elem_of_lookup. by exists j.
    - intros j y Hj Hy C. apply (Hmin j y Hj Hy). by rewrite C. }
  exists i, c. split; [done|]. split; [done|].
  rewrite (winningChoice_lowest_argmax p i Hlow).
  unfold element. replace (0 <=? Z.of_nat i) with true by (symmetry; apply Z.leb_le; lia).
  by rewrite Nat2Z.id, Hc.
Qed.

Lemma winning_choice_defined_witness :
  exists (i : nat) c,
    Votes.tie.(choices) !! i = Some c /\ winningChoice Votes.tie = str c.
Proof.
  destruct (winning_choice_defined Votes.tie) as (i & c & _ & Hc & Hw);
    [discriminate | cbn; lia |].
  exists i, c. split; [exact Hc | exact Hw].
Defined.

End ResolverMore.
